(** * generate_poly_repo: replay of a push-event feed into a synthetic history

    Shallow embedding of [scripts/generate_poly_repo.py] and the properties
    of its event-to-history synthesis.

    Layout:
    - [Text]: the string operations the script uses ([str.split], string
      comparison as used by [list.sort] and [sorted]);
    - [PySort]: Python's stable sort with a string key;
    - [Feed]: the event records of the GitHub feed;
    - [Effects]: the outside world (file system, [subprocess.check_call],
      console) and the monad the script runs in;
    - [Script]: [run_cmd] and [main], block by block;
    - [History]: the history store that the issued git commands describe;
    - [Worlds], [Plan], [Samples]: worlds to run the script in, the commands
      of a run as a list, and sample feeds;
    - [Observe]: what a trace shows; [Terms] and [Iso8601]: the first line
      of a message and the instant of a timestamp, as the specification
      uses the words;
    - the properties: of the string operations and the sort, of running a
      list of operations, of the store and the three sets of the loop, then
      the properties of [main] itself (C1 to C10), and some sample
      runs. *)

From Stdlib Require Import Ascii String.
From Stdlib Require Import Sorting.Sorted.
From stdpp Require Import base gmap sets list sorting strings pretty.

Set Default Proof Using "Type".

(** ** String operations *)

Module Text.

(** [s.split(sep)] for a one-character separator: the pieces between the
    occurrences of [sep]; never the empty list. *)
Fixpoint split (sep : ascii) (s : string) : list string :=
  match s with
  | EmptyString => [EmptyString]
  | String c s' =>
      if Ascii.eqb c sep then EmptyString :: split sep s'
      else match split sep s' with
           | [] => [String c EmptyString]
           | piece :: pieces => String c piece :: pieces
           end
  end.

(** [s.split(sep)[-1]] *)
Definition last_piece (sep : ascii) (s : string) : string :=
  List.last (split sep s) EmptyString.

(** [s.split(sep)[0]] *)
Definition first_piece (sep : ascii) (s : string) : string :=
  List.hd EmptyString (split sep s).

(** [sep.join(pieces)] for a one-character separator. *)
Fixpoint join (sep : ascii) (pieces : list string) : string :=
  match pieces with
  | [] => EmptyString
  | [piece] => piece
  | piece :: rest => piece +:+ String sep (join sep rest)
  end.

(** The characters of a string. *)
Fixpoint chars (s : string) : list ascii :=
  match s with
  | EmptyString => []
  | String c s' => c :: chars s'
  end.

Definition slash : ascii := "/"%char.
Definition newline : ascii := Ascii.ascii_of_nat 10.

(** Python compares [str] values code point by code point; on the UTF-8
    bytes of a string this is the byte-wise lexicographic order. *)
Definition le (a b : string) : Prop := String.leb a b = true.

End Text.

(** ** Sorting *)

Module PySort.
Section ByKey.
Context {A : Type} (key : A → string).

(** Place [x] in front of the first element whose key is not smaller. *)
Fixpoint insert (x : A) (l : list A) : list A :=
  match l with
  | [] => [x]
  | y :: l' => if String.leb (key x) (key y) then x :: l
               else y :: insert x l'
  end.

(** [l.sort(key=key)] / [sorted(l, key=key)]: ascending and stable.
    A stable sort has one possible result, which insertion from the
    right computes. *)
Definition sort (l : list A) : list A := foldr insert [] l.

(** Ascending in the key: each element is at most every later one. *)
Definition ascending : list A → Prop :=
  StronglySorted (λ a b, Text.le (key a) (key b)).

End ByKey.

(** [sorted(l)] on a list of strings. *)
Definition sorted (l : list string) : list string := sort id l.

End PySort.

(** ** The event feed *)

Module Feed.

(** An entry of [payload["commits"]]. *)
Record Commit := { message : string }.

(** One event object of the feed, with the fields the script reads.
    [commits = None] stands for a payload without the ["commits"] key. *)
Record Event := {
  type : string;
  repo_name : string;          (* event["repo"]["name"] *)
  created_at : string;
  commits : option (list Commit)  (* event["payload"].get("commits") *)
}.

(** What the guarded block around [requests.get] ends with. *)
Inductive Response :=
| Fetched (events : list Event)
| FetchFailed (e : string).

End Feed.

(** ** The outside world and the monad of the script *)

Module Effects.

(** A [subprocess.check_call(args, cwd=cwd, env=final_env)].  [env] holds
    the entries laid over the inherited environment. *)
Record Cmd := {
  args : list string;
  cwd : option string;
  env : list (string * string)
}.

(** The operations on the outside world that may raise. *)
Inductive Op :=
| Rmtree (path : string)        (* shutil.rmtree(path) *)
| Makedirs (path : string)      (* os.makedirs(path) *)
| CheckCall (c : Cmd).          (* subprocess.check_call(...) *)

Inductive Outcome :=
| Done
| Failed (e : string).          (* raised an exception that prints as [e] *)

Definition succeeded (o : Outcome) : bool :=
  match o with Done => true | Failed _ => false end.

(** The environment the script runs in: any type of world states with a
    file-existence test and a transition for each operation. *)
Class World (W : Type) := {
  path_exists : string → W → bool;
  perform : Op → W → W * Outcome
}.

(** What an observer of one run sees, in order. *)
Inductive Entry :=
| Printed (line : string)
| Did (op : Op) (o : Outcome).

Record Proc (W : Type) := { world : W; trace : list Entry }.
Arguments world {W} _.
Arguments trace {W} _.

(** Python exceptions, as far as the script tells them apart:
    [SystemExit] is not caught by [except Exception]. *)
Inductive Exn :=
| SystemExit (code : nat)
| Error (e : string).

Inductive Res (A : Type) :=
| Ret (a : A)
| Raise (x : Exn).
Arguments Ret {A} a.
Arguments Raise {A} x.

Definition M (W A : Type) : Type := Proc W → Res A * Proc W.

Section Monad.
Context {W : Type} `{World W}.

Definition ret {A} (a : A) : M W A := λ p, (Ret a, p).

Definition bind {A B} (m : M W A) (k : A → M W B) : M W B :=
  λ p, match m p with
       | (Ret a, p') => k a p'
       | (Raise x, p') => (Raise x, p')
       end.

Definition raise {A} (x : Exn) : M W A := λ p, (Raise x, p).

(** [print(line)] *)
Definition print (line : string) : M W unit :=
  λ p, (Ret tt, {| world := world p; trace := trace p ++ [Printed line] |}).

(** [sys.exit(code)] *)
Definition sys_exit {A} (code : nat) : M W A := raise (SystemExit code).

(** [os.path.exists(path)] *)
Definition os_path_exists (path : string) : M W bool :=
  λ p, (Ret (path_exists path (world p)), p).

(** One operation on the world: logged, and raising when it fails. *)
Definition call (op : Op) : M W unit :=
  λ p, let '(w, o) := perform op (world p) in
       let p' := {| world := w; trace := trace p ++ [Did op o] |} in
       match o with
       | Done => (Ret tt, p')
       | Failed e => (Raise (Error e), p')
       end.

(** [try: body except Exception as e: handler(e)] *)
Definition try_except {A} (body : M W A) (handler : string → M W A)
  : M W A :=
  λ p, match body p with
       | (Raise (Error e), p') => handler e p'
       | r => r
       end.

(** [for x in l: body(x)] *)
Fixpoint for_each {A} (l : list A) (body : A → M W unit) : M W unit :=
  match l with
  | [] => ret tt
  | x :: l' => bind (body x) (λ _, for_each l' body)
  end.

(** A [for] loop that updates local variables [S]. *)
Fixpoint for_fold {A S} (l : list A) (body : A → S → M W S) (s : S)
  : M W S :=
  match l with
  | [] => ret s
  | x :: l' => bind (body x s) (for_fold l' body)
  end.

End Monad.

(** The exit status of the interpreter for a run of [main()]: 0 when it
    returns, the code of a [SystemExit], 1 for an uncaught exception. *)
Definition exit_status (r : Res unit) : nat :=
  match r with
  | Ret _ => 0
  | Raise (SystemExit code) => code
  | Raise (Error _) => 1
  end.

End Effects.

Global Instance M_ret {W} : MRet (Effects.M W) := @Effects.ret W.
Global Instance M_bind {W} : MBind (Effects.M W) :=
  λ A B k m, Effects.bind m k.

Ltac unfold_monad :=
  unfold mbind, M_bind, mret, M_ret, Effects.bind, Effects.ret,
    Effects.raise, Effects.sys_exit in *.

(** ** The script *)

Module Script.
Import Text Feed Effects.

Definition GITHUB_USERNAME : string := "avinasx".
Definition OUTPUT_REPO_DIR : string := "combined_activity_repo".
Definition MAX_REPOS : nat := 5.

(** The local variables of the replay loop. *)
Record Alloc := {
  repos_seen : gset string;
  created_branches : gset string;
  active_branches : gset string
}.

Section Run.
Context {W : Type} `{World W}.

(** [run_cmd(args, cwd=None, env=None)]: the command runs in the inherited
    environment with the entries of [env], if any, laid over it. *)
Definition run_cmd (args : list string) (cwd : option string)
    (env : option (list (string * string))) : M W unit :=
  let final_env := default [] env in
  call (CheckCall {| args := args; cwd := cwd; env := final_env |}).

(** The body of [for event in push_events]. *)
Definition replay_event (event : Event) (st : Alloc) : M W Alloc :=
  let repo_name := repo_name event in
  let short_name := last_piece slash repo_name in
  (* Filter Logic *)
  if bool_decide (short_name ∉ repos_seen st)
     && bool_decide (MAX_REPOS ≤ size (repos_seen st))
  then mret st (* continue *)
  else
    let repos_seen :=
      if bool_decide (short_name ∉ repos_seen st)
      then repos_seen st ∪ {[short_name]} else repos_seen st in
    (* Branch Management *)
    '(created_branches, active_branches) ←
      (if bool_decide (short_name ∉ created_branches st) then
         run_cmd ["git"; "checkout"; "main"] (Some OUTPUT_REPO_DIR) None;;
         run_cmd ["git"; "checkout"; "-b"; short_name]
                 (Some OUTPUT_REPO_DIR) None;;
         mret (created_branches st ∪ {[short_name]},
               active_branches st ∪ {[short_name]})
       else
         run_cmd ["git"; "checkout"; short_name] (Some OUTPUT_REPO_DIR) None;;
         mret (created_branches st, active_branches st));
    (* Replay Commits *)
    let timestamp := created_at event in
    let env := [("GIT_AUTHOR_DATE", timestamp);
                ("GIT_COMMITTER_DATE", timestamp)] in
    let commits := default [] (commits event) in
    let commits :=
      match commits with
      | [] => [{| message := "Update" |}]
      | _ => commits
      end in
    for_each commits (λ commit,
      let msg := first_piece newline (message commit) in
      run_cmd ["git"; "commit"; "--allow-empty"; "-m";
               short_name +:+ ": " +:+ msg]
              (Some OUTPUT_REPO_DIR) (Some env));;
    mret {| repos_seen := repos_seen;
            created_branches := created_branches;
            active_branches := active_branches |}.

(** The final merge, from [print("Merging ...")] on. *)
Definition merge_branches (active_branches : gset string) : M W unit :=
  print "Merging all branches into main...";;
  run_cmd ["git"; "checkout"; "main"] (Some OUTPUT_REPO_DIR) None;;
  if bool_decide (active_branches ≠ ∅) then
    let branches_to_merge := PySort.sorted (elements active_branches) in
    let cmd := ["git"; "merge"; "--no-edit"] ++ branches_to_merge in
    try_except (run_cmd cmd (Some OUTPUT_REPO_DIR) None)
      (λ e, print ("Merge failed (possibly empty branches?): " +:+ e))
  else mret tt.

(** [main()], given what the request for the feed came back with. *)
Definition main (resp : Response) : M W unit :=
  print ("Fetching events for " +:+ GITHUB_USERNAME +:+ "...");;
  events ← match resp return M W (list Event) with
           | Fetched events => mret events
           | FetchFailed e =>
               print ("Error fetching GitHub events: " +:+ e);;
               sys_exit 1
           end;
  let push_events := filter (λ e, type e = "PushEvent") events in
  let push_events := PySort.sort created_at push_events in
  match push_events with
  | [] =>
      print "No recent push events found.";;
      sys_exit 1
  | first_event :: _ =>
      print ("Found " +:+ pretty (length push_events)
             +:+ " push events. Generating synthetic history...");;
      (* 1. Initialize the synthetic repository *)
      present ← os_path_exists OUTPUT_REPO_DIR;
      (if (present : bool) then call (Rmtree OUTPUT_REPO_DIR) else mret tt);;
      call (Makedirs OUTPUT_REPO_DIR);;
      run_cmd ["git"; "init"] (Some OUTPUT_REPO_DIR) None;;
      run_cmd ["git"; "config"; "user.email"; "bot@example.com"]
              (Some OUTPUT_REPO_DIR) None;;
      run_cmd ["git"; "config"; "user.name"; "ActivityBot"]
              (Some OUTPUT_REPO_DIR) None;;
      (* Root commit *)
      let first_date := created_at first_event in
      run_cmd ["git"; "commit"; "--allow-empty"; "-m"; "Init History";
               "--date"; first_date]
              (Some OUTPUT_REPO_DIR)
              (Some [("GIT_AUTHOR_DATE", first_date);
                     ("GIT_COMMITTER_DATE", first_date)]);;
      run_cmd ["git"; "branch"; "-M"; "main"] (Some OUTPUT_REPO_DIR) None;;
      st ← for_fold push_events replay_event
             {| repos_seen := ∅; created_branches := ∅;
                active_branches := ∅ |};
      merge_branches (active_branches st);;
      print "Synthetic repository generation complete."
  end.

End Run.
End Script.

(** ** The history store

    The git repository is outside the script; what the script knows of it is
    the sequence of commands that came back without error.  [History] reads
    that sequence as operations on a store of named timelines, following the
    command-line forms the script uses. *)

Module History.
Import Effects.

(** A recorded change (a commit), with its author date as given. *)
Record Change := { subject : string; authoredAt : string }.

Inductive GitOp :=
| RecordChange (message date : string)  (* git commit --allow-empty -m .. *)
| RenameCurrent (name : string)         (* git branch -M name *)
| SwitchTo (name : string)              (* git checkout name *)
| CreateTimeline (name : string)        (* git checkout -b name *)
| MergeTimelines (names : list string). (* git merge --no-edit names.. *)

Fixpoint getenv (key : string) (env : list (string * string))
  : option string :=
  match env with
  | [] => None
  | (k, v) :: env' => if String.eqb k key then Some v else getenv key env'
  end.

(** The author date of a commit: the [--date] option when given, else
    [GIT_AUTHOR_DATE]. *)
Definition author_date (options : list string)
    (env : list (string * string)) : option string :=
  match options with
  | [] => getenv "GIT_AUTHOR_DATE" env
  | [flag; date] => if String.eqb flag "--date" then Some date else None
  | _ => None
  end.

Definition parse_sub (sub : string) (rest : list string)
    (env : list (string * string)) : option GitOp :=
  if String.eqb sub "commit" then
    match rest with
    | allow :: m :: message :: options =>
        if String.eqb allow "--allow-empty" && String.eqb m "-m"
        then RecordChange message <$> author_date options env
        else None
    | _ => None
    end
  else if String.eqb sub "branch" then
    match rest with
    | [flag; name] =>
        if String.eqb flag "-M" then Some (RenameCurrent name) else None
    | _ => None
    end
  else if String.eqb sub "checkout" then
    match rest with
    | [name] => Some (SwitchTo name)
    | [flag; name] =>
        if String.eqb flag "-b" then Some (CreateTimeline name) else None
    | _ => None
    end
  else if String.eqb sub "merge" then
    match rest with
    | flag :: names =>
        if String.eqb flag "--no-edit" then Some (MergeTimelines names)
        else None
    | _ => None
    end
  else None.

(** The operation a command line stands for; [None] for the commands that
    leave the timelines alone ([git init], [git config]). *)
Definition parse (c : Cmd) : option GitOp :=
  match args c with
  | prog :: sub :: rest =>
      if String.eqb prog "git" then parse_sub sub rest (env c) else None
  | _ => None
  end.

(** The store: the current timeline, the changes recorded on each timeline
    (in recording order), and the merges made. *)
Record Store := {
  head : string;
  timelines : gmap string (list Change);
  merges : list (string * list string)   (* (into, merged names) *)
}.

Definition recorded (s : Store) (name : string) : list Change :=
  timelines s !!! name.

Definition step (op : GitOp) (s : Store) : Store :=
  match op with
  | RecordChange message date =>
      {| head := head s;
         timelines :=
           <[head s := recorded s (head s)
                       ++ [{| subject := message; authoredAt := date |}]]>
             (timelines s);
         merges := merges s |}
  | RenameCurrent name =>
      {| head := name;
         timelines :=
           match timelines s !! head s with
           | Some changes => <[name := changes]> (delete (head s) (timelines s))
           | None => delete name (timelines s)
           end;
         merges := merges s |}
  | SwitchTo name =>
      {| head := name; timelines := timelines s; merges := merges s |}
  | CreateTimeline name =>
      {| head := name;
         timelines :=
           match timelines s !! name with
           | Some _ => timelines s
           | None => <[name := []]> (timelines s)
           end;
         merges := merges s |}
  | MergeTimelines names =>
      {| head := head s; timelines := timelines s;
         merges := merges s ++ [(head s, names)] |}
  end.

Definition parse_op (op : Op) : option GitOp :=
  match op with
  | CheckCall c => parse c
  | _ => None
  end.

(** The operation of a trace entry, when it is a git command that came
    back without error. *)
Definition effective (e : Entry) : option GitOp :=
  match e with
  | Did op Done => parse_op op
  | _ => None
  end.

(** The operations that took effect during a trace, in order. *)
Definition ops (t : list Entry) : list GitOp := omap effective t.

Definition run (s : Store) (l : list GitOp) : Store :=
  foldl (λ s op, step op s) s l.

(** The timelines created by a list of operations. *)
Definition creates (l : list GitOp) : list string :=
  omap (λ op, match op with
              | CreateTimeline name => Some name
              | _ => None
              end) l.

(** The author dates of the changes a list of operations records. *)
Definition commit_dates (l : list GitOp) : list string :=
  omap (λ op, match op with
              | RecordChange _ date => Some date
              | _ => None
              end) l.

Definition apply (s : Store) (e : Entry) : Store :=
  match effective e with
  | Some op => step op s
  | None => s
  end.

(** A fresh repository: on an unborn initial branch, nothing recorded. *)
Definition fresh (initial_branch : string) : Store :=
  {| head := initial_branch; timelines := ∅; merges := [] |}.

Definition replay (s : Store) (t : list Entry) : Store := foldl apply s t.

(** The names given to the create-timeline commands that succeeded. *)
Definition created (t : list Entry) : list string :=
  omap (λ e, match effective e with
             | Some (CreateTimeline name) => Some name
             | _ => None
             end) t.

(** The operations that failed. *)
Definition failures (t : list Entry) : list Op :=
  omap (λ e, match e with
             | Did op (Failed _) => Some op
             | _ => None
             end) t.

(** The commands attempted, failed ones included. *)
Definition attempted (t : list Entry) : list (list string) :=
  omap (λ e, match e with
             | Did (CheckCall c) _ => Some (args c)
             | _ => None
             end) t.

End History.

(** ** Worlds to run the script in *)

Module Worlds.
Import Effects.

(** A world without the output directory, in which the operations selected
    by [fails] raise and all others succeed. *)
Definition failing (fails : Op → bool) : World unit :=
  {| path_exists := λ _ _, false;
     perform := λ op w, (w, if fails op then Failed "failed" else Done) |}.

Definition obliging : World unit := failing (λ _, false).

(** The world in which exactly the [git merge] fails. *)
Definition merge_fails : World unit :=
  failing (λ op, match op with
                 | CheckCall c =>
                     match args c with
                     | _ :: sub :: _ => String.eqb sub "merge"
                     | _ => false
                     end
                 | _ => false
                 end).

End Worlds.

(** ** The commands of a run, as a list

    The replay loop decides what to run from the feed and its own three sets
    only; the world decides how far the run gets.  [Plan] writes down the
    commands the script is about to issue, so that a run is the execution of
    a list of operations up to the first failure ([replay_event_plan],
    [for_fold_plan] and [main_plan] below relate it to [Script]), and what
    these commands mean for the history store. *)

Module Plan.
Import Text Feed Effects Script History.

(** *** Processes *)

(** A process that has not done anything yet. *)
Definition boot {W} (w : W) : Proc W := {| world := w; trace := [] |}.

(** The process after printing [lines]. *)
Definition printed {W} (lines : list string) (p : Proc W) : Proc W :=
  {| world := world p; trace := trace p ++ map Printed lines |}.

Section Run.
Context {W : Type} `{World W}.

(** Run the operations in order, up to the first that raises. *)
Definition run_all (ops : list Op) : M W unit := for_each ops call.

End Run.

Definition fetching_line : string :=
  "Fetching events for " +:+ GITHUB_USERNAME +:+ "...".

Definition found_line (n : nat) : string :=
  "Found " +:+ pretty n +:+ " push events. Generating synthetic history...".

Definition merging_line : string := "Merging all branches into main...".

Definition merge_failed_line (e : string) : string :=
  "Merge failed (possibly empty branches?): " +:+ e.

(** *** The loop *)

(** The timeline an event goes to: the last piece of its repository
    name. *)
Definition timeline_of (event : Event) : string :=
  last_piece slash (repo_name event).

(** The test guarding [continue]. *)
Definition dropped (event : Event) (st : Alloc) : bool :=
  bool_decide (timeline_of event ∉ repos_seen st)
  && bool_decide (MAX_REPOS ≤ size (repos_seen st)).

(** The commits replayed for an event: its own, or the placeholder. *)
Definition sub_changes (event : Event) : list Commit :=
  let commits := default [] (commits event) in
  match commits with
  | [] => [{| message := "Update" |}]
  | _ => commits
  end.

Definition subject_of (name : string) (commit : Commit) : string :=
  name +:+ ": " +:+ first_piece newline (message commit).

(** The three sets after an event that was not dropped. *)
Definition next (event : Event) (st : Alloc) : Alloc :=
  let name := timeline_of event in
  {| repos_seen :=
       if bool_decide (name ∉ repos_seen st)
       then repos_seen st ∪ {[name]} else repos_seen st;
     created_branches :=
       if bool_decide (name ∉ created_branches st)
       then created_branches st ∪ {[name]} else created_branches st;
     active_branches :=
       if bool_decide (name ∉ created_branches st)
       then active_branches st ∪ {[name]} else active_branches st |}.

(** The three sets after an event. *)
Definition advance (event : Event) (st : Alloc) : Alloc :=
  if dropped event st then st else next event st.

(** The three sets after the loop. *)
Fixpoint loop_state (events : list Event) (st : Alloc) : Alloc :=
  match events with
  | [] => st
  | event :: events' => loop_state events' (advance event st)
  end.

(** The events of the loop that do not take the [continue]. *)
Fixpoint kept (events : list Event) (st : Alloc) : list Event :=
  match events with
  | [] => []
  | event :: events' =>
      if dropped event st then kept events' st
      else event :: kept events' (advance event st)
  end.

Definition empty_alloc : Alloc :=
  {| repos_seen := ∅; created_branches := ∅; active_branches := ∅ |}.

(** The three sets hold the same names. *)
Definition agree (st : Alloc) : Prop :=
  repos_seen st = created_branches st
  ∧ active_branches st = created_branches st.

Definition within_cap (st : Alloc) : Prop :=
  size (repos_seen st) ≤ MAX_REPOS.

(** The events the loop runs over. *)
Definition push_events (events : list Event) : list Event :=
  PySort.sort created_at (filter (λ e, type e = "PushEvent") events).

(** *** The commands *)

Definition git (args : list string) (env : list (string * string)) : Cmd :=
  {| args := args; cwd := Some OUTPUT_REPO_DIR; env := env |}.

Definition dates (timestamp : string) : list (string * string) :=
  [("GIT_AUTHOR_DATE", timestamp); ("GIT_COMMITTER_DATE", timestamp)].

Definition checkout_main : Cmd := git ["git"; "checkout"; "main"] [].

Definition checkout_cmds (name : string) (st : Alloc) : list Cmd :=
  if bool_decide (name ∉ created_branches st)
  then [git ["git"; "checkout"; "main"] [];
        git ["git"; "checkout"; "-b"; name] []]
  else [git ["git"; "checkout"; name] []].

Definition commit_cmd (name timestamp : string) (commit : Commit) : Cmd :=
  git ["git"; "commit"; "--allow-empty"; "-m"; subject_of name commit]
      (dates timestamp).

(** The commands of one pass through the loop body. *)
Definition event_cmds (event : Event) (st : Alloc) : list Cmd :=
  checkout_cmds (timeline_of event) st
  ++ map (commit_cmd (timeline_of event) (created_at event))
         (sub_changes event).

(** The commands of the loop. *)
Fixpoint loop_cmds (events : list Event) (st : Alloc) : list Cmd :=
  match events with
  | [] => []
  | event :: events' =>
      (if dropped event st then [] else event_cmds event st)
      ++ loop_cmds events' (advance event st)
  end.

(** The commands between [os.makedirs] and the loop. *)
Definition init_cmds (first_date : string) : list Cmd :=
  [git ["git"; "init"] [];
   git ["git"; "config"; "user.email"; "bot@example.com"] [];
   git ["git"; "config"; "user.name"; "ActivityBot"] [];
   git ["git"; "commit"; "--allow-empty"; "-m"; "Init History";
        "--date"; first_date] (dates first_date);
   git ["git"; "branch"; "-M"; "main"] []].

(** Everything from the directory test up to the end of the loop. *)
Definition build_ops (present : bool) (events : list Event) : list Op :=
  match events with
  | [] => []
  | first_event :: _ =>
      (if present then [Rmtree OUTPUT_REPO_DIR] else [])
      ++ Makedirs OUTPUT_REPO_DIR
      :: map CheckCall (init_cmds (created_at first_event)
                        ++ loop_cmds events empty_alloc)
  end.

Definition merge_cmd (active_branches : gset string) : Cmd :=
  git (["git"; "merge"; "--no-edit"]
       ++ PySort.sorted (elements active_branches)) [].

(** The command is a [git merge]. *)
Definition is_merge (op : Op) : Prop :=
  match op with
  | CheckCall c => ∃ names, args c = "git" :: "merge" :: names
  | _ => False
  end.

(** *** The same, as operations on the history store *)

Definition change_of (name timestamp : string) (commit : Commit) : Change :=
  {| subject := subject_of name commit; authoredAt := timestamp |}.

Definition checkout_ops (name : string) (st : Alloc) : list GitOp :=
  if bool_decide (name ∉ created_branches st)
  then [SwitchTo "main"; CreateTimeline name] else [SwitchTo name].

Definition event_ops (event : Event) (st : Alloc) : list GitOp :=
  checkout_ops (timeline_of event) st
  ++ map (λ commit, RecordChange (subject_of (timeline_of event) commit)
                                 (created_at event))
         (sub_changes event).

Fixpoint loop_ops (events : list Event) (st : Alloc) : list GitOp :=
  match events with
  | [] => []
  | event :: events' =>
      (if dropped event st then [] else event_ops event st)
      ++ loop_ops events' (advance event st)
  end.

Definition init_ops (first_date : string) : list GitOp :=
  [RecordChange "Init History" first_date; RenameCurrent "main"].

(** The operations on the store of a run of [main] in which no command
    fails. *)
Definition main_ops (events : list Event) : list GitOp :=
  match push_events events with
  | [] => []
  | first_event :: _ =>
      let pushes := push_events events in
      init_ops (created_at first_event)
      ++ loop_ops pushes empty_alloc
      ++ [SwitchTo "main";
          MergeTimelines
            (PySort.sorted
               (elements (active_branches (loop_state pushes empty_alloc))))]
  end.

(** The root change, as the store holds it. *)
Definition root_change (first_date : string) : Change :=
  {| subject := "Init History"; authoredAt := first_date |}.

(** The changes an event puts on its timeline. *)
Definition changes_of (event : Event) : list Change :=
  map (change_of (timeline_of event) (created_at event))
      (sub_changes event).

(** The changes the loop puts on the timeline [name]. *)
Definition loop_changes (events : list Event) (st : Alloc) (name : string)
  : list Change :=
  flat_map changes_of
           (filter (λ event, timeline_of event = name) (kept events st)).

(** The author dates on a timeline, in recording order. *)
Definition timestamps (s : Store) (name : string) : list string :=
  map authoredAt (recorded s name).

End Plan.

(** ** Sample feeds *)

Module Samples.
Import Feed Script.

Definition push (repo timestamp : string) (messages : list string) : Event :=
  {| type := "PushEvent"; repo_name := repo; created_at := timestamp;
     commits := Some (map (λ m, {| message := m |}) messages) |}.

(** An event that is not a push. *)
Definition watch : Event :=
  {| type := "WatchEvent"; repo_name := "avinasx/avinasx";
     created_at := "2024-03-01T10:00:00Z"; commits := None |}.

(** A push without commits in its payload. *)
Definition bare_push : Event := push "avinasx/notes" "2024-03-02T09:00:00Z" [].

(** Two repositories of different owners with the same last segment. *)
Definition own_site : Event :=
  push "avinasx/site" "2024-03-03T08:00:00Z" ["Add index"].
Definition forked_site : Event :=
  push "friend/site" "2024-03-04T08:00:00Z" ["Fix typo"].

(** Three pushes to one repository, two commits each. *)
Definition one_project : list Event :=
  [push "avinasx/app" "2024-04-01T10:00:00Z" ["a1"; "a2"];
   push "avinasx/app" "2024-04-02T10:00:00Z" ["b1"; "b2"];
   push "avinasx/app" "2024-04-03T10:00:00Z" ["c1"; "c2"]].

(** Pushes to six repositories, the first of them again at the end. *)
Definition six_projects : list Event :=
  [push "avinasx/p1" "2024-05-01T10:00:00Z" ["one"];
   push "avinasx/p2" "2024-05-02T10:00:00Z" ["two"];
   push "avinasx/p3" "2024-05-03T10:00:00Z" ["three"];
   push "avinasx/p4" "2024-05-04T10:00:00Z" ["four"];
   push "avinasx/p5" "2024-05-05T10:00:00Z" ["five"];
   push "avinasx/p6" "2024-05-06T10:00:00Z" ["six"];
   push "avinasx/p1" "2024-05-07T10:00:00Z" ["seven"]].

(** Three sets that already hold [MAX_REPOS] names. *)
Definition full_alloc : Alloc :=
  let names : gset string := {[ "a"; "b"; "c"; "d"; "e" ]} in
  {| repos_seen := names; created_branches := names;
     active_branches := names |}.

(** A push whose first commit message runs over two lines. *)
Definition described_push : Event :=
  push "avinasx/app" "2024-04-01T10:00:00Z"
       ["Fix bug" +:+ String Text.newline "Long description"; "Tidy up"].

(** Two pushes an hour apart: the earlier one, at 08:00 UTC, is written
    with a zone two hours ahead; the later one, at 09:00 UTC, in UTC. *)
Definition ten_plus_two (repo : string) : Event :=
  push repo "2024-05-01T10:00:00+02:00" ["early"].
Definition nine_utc (repo : string) : Event :=
  push repo "2024-05-01T09:00:00Z" ["late"].

End Samples.

(** ** What a trace shows *)

Module Observe.
Import Text Feed Effects Script History Plan.

(** The operations attempted, in order, failed ones included. *)
Definition operations (t : list Entry) : list Op :=
  omap (λ e, match e with
             | Did op _ => Some op
             | Printed _ => None
             end) t.

Definition done_line : string := "Synthetic repository generation complete.".

Definition fetch_error_line (e : string) : string :=
  "Error fetching GitHub events: " +:+ e.

(** The operation stays inside the output directory: it removes or makes
    that directory, or runs [git] in it. *)
Definition confined (op : Op) : Prop :=
  match op with
  | Rmtree path | Makedirs path => path = OUTPUT_REPO_DIR
  | CheckCall c =>
      cwd c = Some OUTPUT_REPO_DIR ∧ ∃ rest, args c = "git" :: rest
  end.

(** The environment entries a command is given: both dates for a
    [git commit], none for any other command. *)
Definition dated (c : Cmd) : Prop :=
  match args c with
  | _ :: "commit" :: _ =>
      ∃ timestamp, env c = [("GIT_AUTHOR_DATE", timestamp);
                            ("GIT_COMMITTER_DATE", timestamp)]
  | _ => env c = []
  end.

(** Every [git checkout -b] in the list comes right after a
    [git checkout main]. *)
Definition branches_from_main (commands : list (list string)) : Prop :=
  ∀ front name back,
    commands = front ++ ["git"; "checkout"; "-b"; name] :: back →
    ∃ front', front = front' ++ [["git"; "checkout"; "main"]].

(** The number of commits the loop makes for an event it keeps. *)
Definition commit_count (event : Event) : nat :=
  max 1 (length (default [] (commits event))).

(** The names of a list that are not in [seen], each at its first
    place. *)
Fixpoint first_seen (names : list string) (seen : gset string)
  : list string :=
  match names with
  | [] => []
  | name :: names' =>
      if bool_decide (name ∈ seen) then first_seen names' seen
      else name :: first_seen names' (seen ∪ {[name]})
  end.

(** The number of commits that took effect during a trace. *)
Definition commits_made (t : list Entry) : nat :=
  length (commit_dates (ops t)).

(** The changes a list of operations records, in order, whatever their
    timelines. *)
Definition recorded_changes (l : list GitOp) : list Change :=
  omap (λ op, match op with
              | RecordChange message date =>
                  Some {| subject := message; authoredAt := date |}
              | _ => None
              end) l.

(** The changes recorded during a trace, in the order of recording. *)
Definition changes_made (t : list Entry) : list Change :=
  recorded_changes (ops t).

(** The changes of a run without failures that replays [replayed] in this
    order: the root change, then those of each event that is not
    skipped. *)
Definition planned_changes (replayed : list Event) : list Change :=
  match replayed with
  | [] => []
  | first_event :: _ =>
      root_change (created_at first_event)
      :: flat_map changes_of (kept replayed empty_alloc)
  end.

End Observe.

(** ** The terms of the specification

    Two notions of the specification that the script has no code for of
    its own: the first line of a message, which the script takes with
    [split], and the instant a timestamp denotes, which the script never
    computes: it sorts [created_at] values as strings and hands them to
    git as they are.  They are written down here from the specification's
    words, to compare what the script does with them. *)

Module Terms.

(** [firstLineOf(message)]: the characters before the first line break. *)
Fixpoint firstLineOf (message : string) : string :=
  match message with
  | EmptyString => EmptyString
  | String c rest =>
      if Ascii.eqb c Text.newline then EmptyString
      else String c (firstLineOf rest)
  end.

End Terms.

(** The instant denoted by an ISO-8601 timestamp with a zone, for the forms
    [YYYY-MM-DDTHH:MM:SSZ] and [YYYY-MM-DDTHH:MM:SS+HH:MM] (or [-HH:MM]),
    in the proleptic Gregorian calendar. *)

Module Iso8601.
Local Open Scope Z_scope.

(** A date and a time of day, as written. *)
Record Civil := {
  year : Z; month : Z; day : Z; hour : Z; minute : Z; second : Z
}.

Definition digit (c : ascii) : option Z :=
  let n := Z.of_N (N_of_ascii c) in
  if bool_decide (48 ≤ n ≤ 57) then Some (n - 48) else None.

Definition two (a b : ascii) : option Z :=
  x ← digit a; y ← digit b; Some (10 * x + y).

Definition four (a b c d : ascii) : option Z :=
  x ← two a b; y ← two c d; Some (100 * x + y).

Definition leap (y : Z) : bool :=
  bool_decide (y `mod` 4 = 0 ∧ y `mod` 100 ≠ 0 ∨ y `mod` 400 = 0).

Definition days_in_month (y m : Z) : Z :=
  match m with
  | 2 => if leap y then 29 else 28
  | 4 | 6 | 9 | 11 => 30
  | _ => 31
  end.

(** The days of year [y] before its month [m]. *)
Definition days_before_month (y m : Z) : Z :=
  foldr (λ k total, days_in_month y k + total) 0 (seqZ 1 (m - 1)).

(** The days from 0000-01-01 to the first day of year [y]: 365 a year and
    one more for each leap year before [y]. *)
Definition days_before_year (y : Z) : Z :=
  365 * y + (y + 3) `div` 4 - (y + 99) `div` 100 + (y + 399) `div` 400.

Definition days (c : Civil) : Z :=
  days_before_year (year c) + days_before_month (year c) (month c)
  + (day c - 1).

(** Seconds from 0000-01-01T00:00:00 to the date and time written. *)
Definition seconds (c : Civil) : Z :=
  ((days c * 24 + hour c) * 60 + minute c) * 60 + second c.

Definition valid (c : Civil) : Prop :=
  1 ≤ month c ≤ 12 ∧ 1 ≤ day c ≤ days_in_month (year c) (month c)
  ∧ 0 ≤ hour c < 24 ∧ 0 ≤ minute c < 60 ∧ 0 ≤ second c < 60.

Global Instance valid_dec c : Decision (valid c).
Proof. unfold valid. apply _. Defined.

(** The zone designator: [Z], or a difference to UTC as [+HH:MM] or
    [-HH:MM], in seconds. *)
Definition offset (zone : list ascii) : option Z :=
  match zone with
  | [z] => if Ascii.eqb z "Z" then Some 0 else None
  | [sign; h1; h2; colon; m1; m2] =>
      h ← two h1 h2; m ← two m1 m2;
      if bool_decide (h < 24 ∧ m < 60) && Ascii.eqb colon ":" then
        if Ascii.eqb sign "+" then Some (h * 3600 + m * 60)
        else if Ascii.eqb sign "-" then Some (- (h * 3600 + m * 60))
        else None
      else None
  | _ => None
  end.

(** The date and time of [YYYY-MM-DDTHH:MM:SS<zone>], and the characters of
    the zone designator. *)
Definition civil (s : string) : option (Civil * list ascii) :=
  match list_ascii_of_string s with
  | y1 :: y2 :: y3 :: y4 :: a :: m1 :: m2 :: b :: d1 :: d2 :: t
    :: h1 :: h2 :: c :: n1 :: n2 :: d :: s1 :: s2 :: zone =>
      if Ascii.eqb a "-" && Ascii.eqb b "-" && Ascii.eqb t "T"
         && Ascii.eqb c ":" && Ascii.eqb d ":" then
        year ← four y1 y2 y3 y4; month ← two m1 m2; day ← two d1 d2;
        hour ← two h1 h2; minute ← two n1 n2; second ← two s1 s2;
        let c := {| year := year; month := month; day := day;
                    hour := hour; minute := minute; second := second |} in
        if bool_decide (valid c) then Some (c, zone) else None
      else None
  | _ => None
  end.

(** The order of the fields, read from the year down. *)
Definition fields_le (a b : Civil) : Prop :=
  year a < year b
  ∨ year a = year b
    ∧ (month a < month b
       ∨ month a = month b
         ∧ (day a < day b
            ∨ day a = day b
              ∧ (hour a < hour b
                 ∨ hour a = hour b
                   ∧ (minute a < minute b
                      ∨ minute a = minute b ∧ second a ≤ second b)))).

(** The instant a timestamp denotes, in seconds: the time written is local
    time, which is UTC plus the difference of the zone. *)
Definition instant (s : string) : option Z :=
  '(c, zone) ← civil s; off ← offset zone; Some (seconds c - off).

(** A timestamp in UTC, [YYYY-MM-DDTHH:MM:SSZ]: the form of the feed. *)
Definition utc (s : string) : Prop :=
  ∃ c, civil s = Some (c, ["Z"%char]).

(** Both strings denote instants, and the first is not after the second. *)
Definition not_later (a b : string) : Prop :=
  match instant a, instant b with
  | Some x, Some y => x ≤ y
  | _, _ => False
  end.

End Iso8601.

(** * Properties *)

(** ** The order on strings *)

Module TextFacts.
Import Text.

Lemma ascii_compare_refl (c : ascii) : Ascii.compare c c = Eq.
Proof. unfold Ascii.compare. apply N.compare_refl. Qed.

Lemma compare_refl (s : string) : String.compare s s = Eq.
Proof.
  induction s as [|c s IH]; simpl; [done|].
  by rewrite ascii_compare_refl.
Qed.

Lemma ascii_compare_lt_trans (a b c : ascii) :
  Ascii.compare a b = Lt → Ascii.compare b c = Lt → Ascii.compare a c = Lt.
Proof.
  unfold Ascii.compare. rewrite !N.compare_lt_iff. lia.
Qed.

Lemma compare_lt_trans (s1 s2 s3 : string) :
  String.compare s1 s2 = Lt → String.compare s2 s3 = Lt →
  String.compare s1 s3 = Lt.
Proof.
  revert s2 s3.
  induction s1 as [|a s1 IH]; intros [|b s2] [|c s3]; simpl; try done.
  destruct (Ascii.compare a b) eqn:Hab; try done.
  - apply Ascii.compare_eq_iff in Hab as ->.
    destruct (Ascii.compare b c); try done. apply IH.
  - destruct (Ascii.compare b c) eqn:Hbc; try done.
    + apply Ascii.compare_eq_iff in Hbc as <-. by rewrite Hab.
    + by rewrite (ascii_compare_lt_trans a b c).
Qed.

Lemma le_refl (s : string) : le s s.
Proof. unfold le, String.leb. by rewrite compare_refl. Qed.

Lemma le_total (a b : string) : le a b ∨ le b a.
Proof. apply String.leb_total. Qed.

Lemma le_lt_or_eq (a b : string) :
  le a b ↔ String.compare a b = Lt ∨ a = b.
Proof.
  unfold le, String.leb. split.
  - destruct (String.compare a b) eqn:Hc; try done.
    + right. by apply String.compare_eq_iff.
    + by left.
  - intros [-> | ->]; [done|]. by rewrite compare_refl.
Qed.

Lemma le_trans (a b c : string) : le a b → le b c → le a c.
Proof.
  rewrite !le_lt_or_eq. intros [Hab | ->] [Hbc | ->]; eauto.
  left. by eapply compare_lt_trans.
Qed.

Lemma not_le (a b : string) : String.leb a b = false → le b a ∧ a ≠ b.
Proof.
  intros Hf. split.
  - destruct (le_total a b) as [Hab | Hba]; [|done].
    unfold le in Hab. congruence.
  - intros ->. pose proof (le_refl b) as Hb. unfold le in Hb. congruence.
Qed.

(** [split] cuts at every separator and nowhere else. *)
Lemma split_nonempty sep s : split sep s ≠ [].
Proof.
  destruct s as [|c s]; [done|]. simpl.
  destruct (Ascii.eqb c sep); [done|]. by destruct (split sep s).
Qed.

Lemma join_split sep s : join sep (split sep s) = s.
Proof.
  induction s as [|c s IH]; [done|]. simpl.
  destruct (Ascii.eqb c sep) eqn:Hc.
  - apply Ascii.eqb_eq in Hc as ->.
    pose proof (split_nonempty sep s) as Hne.
    destruct (split sep s) as [|piece rest]; [done|].
    simpl in *. by rewrite IH.
  - destruct (split sep s) as [|piece [|piece' rest]]; simpl in *;
      by rewrite <-IH.
Qed.

Lemma split_no_sep sep s :
  Forall (λ piece, sep ∉ chars piece) (split sep s).
Proof.
  induction s as [|c s IH]; simpl.
  - repeat constructor. by intros ?%elem_of_nil.
  - destruct (Ascii.eqb c sep) eqn:Hc.
    + constructor; [by intros ?%elem_of_nil|done].
    + destruct (split sep s) as [|piece rest].
      * repeat constructor. simpl.
        intros [-> | ?%elem_of_nil]%elem_of_cons; [|done].
        by rewrite Ascii.eqb_refl in Hc.
      * apply Forall_cons in IH as [Hpiece Hrest].
        constructor; [|done]. simpl.
        intros [-> | ?]%elem_of_cons; [|done].
        by rewrite Ascii.eqb_refl in Hc.
Qed.

(** The last piece holds no separator, and the string ends in it. *)
Lemma last_piece_no_sep sep s : sep ∉ chars (last_piece sep s).
Proof.
  unfold last_piece. pose proof (split_no_sep sep s) as Hall.
  pose proof (split_nonempty sep s) as Hne.
  induction Hall as [|piece rest Hpiece Hrest IH]; [done|].
  destruct rest as [|piece' rest]; [done|]. by apply IH.
Qed.

Lemma append_assoc (a b c : string) : (a +:+ b) +:+ c = a +:+ (b +:+ c).
Proof.
  induction a as [|x a IH]; [done|].
  change (String x ((a +:+ b) +:+ c) = String x (a +:+ (b +:+ c))).
  by rewrite IH.
Qed.

Lemma join_last sep pieces :
  pieces ≠ [] →
  join sep pieces = List.last pieces EmptyString
  ∨ ∃ front,
      join sep pieces = front +:+ String sep (List.last pieces EmptyString).
Proof.
  induction pieces as [|piece rest IH]; [done|]. intros _.
  destruct rest as [|piece' rest]; [by left|]. right.
  change (join sep (piece :: piece' :: rest))
    with (piece +:+ String sep (join sep (piece' :: rest))).
  change (List.last (piece :: piece' :: rest) EmptyString)
    with (List.last (piece' :: rest) EmptyString).
  destruct IH as [-> | [front ->]]; [done|by exists piece|].
  exists (piece +:+ String sep front).
  symmetry. apply (append_assoc piece (String sep front)).
Qed.

(** The last piece is the whole string, or what follows its last
    separator. *)
Lemma last_piece_spec sep s :
  (sep ∉ chars (last_piece sep s))
  ∧ (s = last_piece sep s
     ∨ ∃ front, s = front +:+ String sep (last_piece sep s)).
Proof.
  split; [apply last_piece_no_sep|]. unfold last_piece.
  destruct (join_last sep (split sep s) (split_nonempty sep s))
    as [Hlast | [front Hlast]]; rewrite join_split in Hlast;
    [by left|right; by exists front].
Qed.

End TextFacts.

(** ** The stable sort *)

Module PySortFacts.
Import Text TextFacts PySort.

Section ByKey.
Context {A : Type} (key : A → string).

Lemma insert_Permutation x l : insert key x l ≡ₚ x :: l.
Proof.
  induction l as [|y l IH]; simpl; [done|].
  destruct (String.leb (key x) (key y)); [done|].
  rewrite IH. apply Permutation_swap.
Qed.

Lemma sort_Permutation l : sort key l ≡ₚ l.
Proof.
  induction l as [|x l IH]; simpl; [done|].
  by rewrite insert_Permutation, IH.
Qed.

Lemma insert_ascending x l : ascending key l → ascending key (insert key x l).
Proof.
  unfold ascending. induction l as [|y l IH]; simpl; intros Hl.
  - repeat constructor.
  - apply StronglySorted_cons in Hl as [Hy Hl].
    destruct (String.leb (key x) (key y)) eqn:Hxy.
    + apply StronglySorted_cons. split; [|by apply StronglySorted_cons].
      constructor; [done|].
      eapply Forall_impl; [exact Hy|]. intros z Hz; simpl in *.
      by eapply le_trans.
    + apply not_le in Hxy as [Hyx _].
      apply StronglySorted_cons. split; [|by apply IH].
      rewrite insert_Permutation. by constructor.
Qed.

Lemma sort_ascending l : ascending key (sort key l).
Proof.
  induction l as [|x l IH]; simpl; [constructor|].
  by apply insert_ascending.
Qed.

(** Insertion leaves the elements of any one key in their order, with
    the new element in front of them. *)
Lemma insert_filter_key k x l :
  filter (λ a, key a = k) (insert key x l)
  = filter (λ a, key a = k) (x :: l).
Proof.
  induction l as [|y l IH]; simpl; [done|].
  destruct (String.leb (key x) (key y)) eqn:Hxy; [done|].
  apply not_le in Hxy as [_ Hne].
  rewrite (filter_cons _ y), IH, !(filter_cons _ x), !(filter_cons _ y).
  repeat case_decide; congruence.
Qed.

Lemma sort_stable k l :
  filter (λ a, key a = k) (sort key l) = filter (λ a, key a = k) l.
Proof.
  induction l as [|x l IH]; simpl; [done|].
  by rewrite insert_filter_key, !filter_cons, IH.
Qed.

End ByKey.

Lemma sorted_elem_of (l : list string) x : x ∈ sorted l ↔ x ∈ l.
Proof. unfold sorted. by rewrite sort_Permutation. Qed.

Lemma sorted_ascending (l : list string) : StronglySorted le (sorted l).
Proof. apply (sort_ascending id). Qed.

Lemma sorted_NoDup (l : list string) : NoDup l → NoDup (sorted l).
Proof. unfold sorted. by rewrite sort_Permutation. Qed.

End PySortFacts.

(** ** Running a list of operations *)

Module RunFacts.
Import Text Feed Effects Script Plan.

Section Run.
Context {W : Type} `{World W}.

Lemma call_inv op p r p' :
  call op p = (r, p') →
  (r = Ret tt ∧ trace p' = trace p ++ [Did op Done])
  ∨ (∃ e, r = Raise (Error e) ∧ trace p' = trace p ++ [Did op (Failed e)]).
Proof.
  unfold call. destruct (perform op (world p)) as [w [|e]]; intros [= <- <-].
  - by left.
  - right. by exists e.
Qed.

Lemma run_all_app ops1 ops2 p :
  run_all (ops1 ++ ops2) p = bind (run_all ops1) (λ _, run_all ops2) p.
Proof.
  revert p. induction ops1 as [|op ops1 IH]; intros p; [done|].
  unfold run_all in *. simpl. unfold bind in *.
  destruct (call op p) as [[[]|x] p1]; [|done]. apply IH.
Qed.

Lemma run_all_cons op ops p :
  run_all (op :: ops) p =
    let (r, p') := call op p in
    match r with
    | Ret _ => run_all ops p'
    | Raise x => (Raise x, p')
    end.
Proof. done. Qed.

Lemma for_each_map {A B} (f : A → B) (body : B → M W unit) l :
  for_each (map f l) body = for_each l (λ a, body (f a)).
Proof.
  induction l as [|a l IH]; [done|]. simpl.
  exact (f_equal (λ rest, bind (body (f a)) (λ _, rest)) IH).
Qed.

(** A run of a list of operations performs a prefix of it: either all
    of it, or it stops at the first operation that fails. *)
Lemma run_all_inv ops p r p' :
  run_all ops p = (r, p') →
  (r = Ret tt ∧ trace p' = trace p ++ map (λ op, Did op Done) ops)
  ∨ (∃ k op e,
        ops !! k = Some op ∧ r = Raise (Error e) ∧
        trace p' = trace p ++ map (λ op, Did op Done) (take k ops)
                           ++ [Did op (Failed e)]).
Proof.
  revert p. induction ops as [|op ops IH]; intros p.
  - intros [= <- <-]. left. by rewrite app_nil_r.
  - unfold run_all; simpl. unfold bind.
    destruct (call op p) as [r1 p1] eqn:Hcall.
    apply call_inv in Hcall as [[-> Ht] | (e & -> & Ht)].
    + intros Hrest. apply IH in Hrest as [[-> Ht'] | (k & op' & e & Hk & -> & Ht')].
      * left. split; [done|]. rewrite Ht', Ht. by rewrite <-app_assoc.
      * right. exists (S k), op', e. split_and!; [done..|].
        rewrite Ht', Ht. by rewrite <-app_assoc.
    + intros [= <- <-]. right. exists 0, op, e. by rewrite Ht.
Qed.

(** The loop body runs the commands planned for the event. *)
Lemma replay_event_plan event st p :
  replay_event event st p =
    if dropped event st then (Ret st, p)
    else match run_all (map CheckCall (event_cmds event st)) p with
         | (Ret _, p') => (Ret (next event st), p')
         | (Raise x, p') => (Raise x, p')
         end.
Proof.
  unfold replay_event. fold (timeline_of event). fold (dropped event st).
  destruct (dropped event st); [done|].
  unfold event_cmds. rewrite map_app, run_all_app.
  unfold run_all at 2. rewrite !for_each_map.
  unfold checkout_cmds, next, sub_changes, run_all, commit_cmd, subject_of,
    dates, run_cmd, git.
  unfold_monad.
  destruct (bool_decide (timeline_of event ∉ created_branches st)); simpl;
    unfold bind.
  - destruct (call _ p) as [[[]|x] p1]; [|done].
    destruct (call _ p1) as [[[]|x] p2]; [|done].
    unfold ret; simpl.
    by destruct (for_each _ _ p2) as [[[]|x] p3].
  - destruct (call _ p) as [[[]|x] p1]; [|done].
    unfold ret; simpl.
    by destruct (for_each _ _ p1) as [[[]|x] p3].
Qed.

Lemma print_printed line (p : Proc W) :
  print line p = (Ret tt, printed [line] p).
Proof. done. Qed.

Lemma printed_app l1 l2 (p : Proc W) :
  printed l2 (printed l1 p) = printed (l1 ++ l2) p.
Proof. unfold printed; simpl. by rewrite map_app, app_assoc. Qed.

(** So does the whole loop. *)
Lemma for_fold_plan events st p :
  for_fold events replay_event st p =
    match run_all (map CheckCall (loop_cmds events st)) p with
    | (Ret _, p') => (Ret (loop_state events st), p')
    | (Raise x, p') => (Raise x, p')
    end.
Proof.
  revert st p. induction events as [|event events IH]; intros st p; [done|].
  simpl. unfold bind. rewrite replay_event_plan. unfold advance.
  destruct (dropped event st); simpl; [apply IH|].
  rewrite map_app, run_all_app. unfold bind.
  destruct (run_all _ p) as [[[]|x] p1]; [apply IH|done].
Qed.

(** The three ways [main] goes. *)
Lemma main_fetch_failed e p :
  main (FetchFailed e) p
  = (Raise (SystemExit 1),
     printed [fetching_line; "Error fetching GitHub events: " +:+ e] p).
Proof.
  unfold main. unfold_monad. rewrite !print_printed.
  by rewrite printed_app.
Qed.

Lemma main_no_push events p :
  push_events events = [] →
  main (Fetched events) p
  = (Raise (SystemExit 1),
     printed [fetching_line; "No recent push events found."] p).
Proof.
  intros Hnil. unfold main. unfold_monad.
  rewrite print_printed. cbv beta iota zeta. fold (push_events events).
  rewrite Hnil, print_printed. by rewrite printed_app.
Qed.

Lemma main_plan events p :
  push_events events ≠ [] →
  main (Fetched events) p =
    let pushes := push_events events in
    let present := path_exists OUTPUT_REPO_DIR (world p) in
    match run_all (build_ops present pushes)
            (printed [fetching_line; found_line (length pushes)] p) with
    | (Ret _, p1) =>
        bind (merge_branches (active_branches (loop_state pushes empty_alloc)))
             (λ _, print "Synthetic repository generation complete.") p1
    | (Raise x, p1) => (Raise x, p1)
    end.
Proof.
  intros Hne. unfold main. unfold_monad.
  rewrite print_printed. cbv beta iota zeta. fold (push_events events).
  destruct (push_events events) as [|first_event rest] eqn:Hsort; [done|].
  rewrite print_printed. cbv beta iota zeta. rewrite printed_app.
  set (p0 := printed _ p).
  unfold build_ops, os_path_exists. cbv beta iota zeta.
  change (world p0) with (world p).
  assert (Hinit : ∀ q,
    run_all (Makedirs OUTPUT_REPO_DIR
             :: map CheckCall (init_cmds (created_at first_event)
                               ++ loop_cmds (first_event :: rest) empty_alloc)) q
    = bind (call (Makedirs OUTPUT_REPO_DIR)) (λ _,
      bind (run_all (map CheckCall (init_cmds (created_at first_event))))
           (λ _, run_all (map CheckCall (loop_cmds (first_event :: rest) empty_alloc))))
        q).
  { intros q. rewrite run_all_cons. unfold bind at 1.
    destruct (call _ q) as [[[]|x] q1]; [|done].
    by rewrite map_app, run_all_app. }
  destruct (path_exists OUTPUT_REPO_DIR (world p)).
  - change ([Rmtree OUTPUT_REPO_DIR] ++ ?l) with (Rmtree OUTPUT_REPO_DIR :: l).
    rewrite run_all_cons.
    destruct (call (Rmtree _) p0) as [[[]|x] p1]; [|done].
    rewrite Hinit. unfold bind.
    destruct (call (Makedirs _) p1) as [[[]|x] p2]; [|done].
    unfold init_cmds. rewrite !map_cons.
    unfold run_cmd, git, dates. cbn [from_option id].
    repeat (rewrite run_all_cons;
            destruct (call (CheckCall _) _) as [[[]|?] ?]; [|done]).
    rewrite for_fold_plan. change (run_all (map CheckCall []) ?q) with (Ret tt, q).
    cbv beta iota.
    by destruct (run_all _ _) as [[[]|?] ?].
  - change ([] ++ ?l) with l. unfold ret.
    rewrite Hinit. unfold bind.
    destruct (call (Makedirs _) p0) as [[[]|x] p2]; [|done].
    unfold init_cmds. rewrite !map_cons.
    unfold run_cmd, git, dates. cbn [from_option id].
    repeat (rewrite run_all_cons;
            destruct (call (CheckCall _) _) as [[[]|?] ?]; [|done]).
    rewrite for_fold_plan. change (run_all (map CheckCall []) ?q) with (Ret tt, q).
    cbv beta iota.
    by destruct (run_all _ _) as [[[]|?] ?].
Qed.

(** The ways the final merge goes. *)
Lemma merge_branches_inv active p r p' :
  merge_branches active p = (r, p') →
  ∃ w1 o1,
    perform (CheckCall checkout_main) (world p) = (w1, o1) ∧
    match o1 with
    | Failed e =>
        r = Raise (Error e) ∧
        trace p' = trace p ++ [Printed merging_line;
                               Did (CheckCall checkout_main) (Failed e)]
    | Done =>
        r = Ret tt ∧
        if bool_decide (active ≠ ∅) then
          ∃ o2,
            (perform (CheckCall (merge_cmd active)) w1).2 = o2 ∧
            trace p' = trace p
              ++ [Printed merging_line; Did (CheckCall checkout_main) Done;
                  Did (CheckCall (merge_cmd active)) o2]
              ++ match o2 with
                 | Done => []
                 | Failed e => [Printed (merge_failed_line e)]
                 end
        else
          trace p' = trace p ++ [Printed merging_line;
                                 Did (CheckCall checkout_main) Done]
    end.
Proof.
  unfold merge_branches. unfold_monad.
  rewrite print_printed. cbv beta iota.
  change (run_cmd ["git"; "checkout"; "main"] (Some OUTPUT_REPO_DIR) None)
    with (call (CheckCall checkout_main)).
  change (run_cmd (["git"; "merge"; "--no-edit"] ++ ?l)
            (Some OUTPUT_REPO_DIR) None)
    with (call (CheckCall (git (["git"; "merge"; "--no-edit"] ++ l) []))).
  fold (merge_cmd active).
  unfold call at 1. change (world (printed _ p)) with (world p).
  destruct (perform (CheckCall checkout_main) (world p)) as [w1 [|e]];
    intros Hrun; exists w1; eexists; (split; [done|]);
    cbv beta iota in *.
  - destruct (bool_decide (active ≠ ∅)).
    + unfold try_except, call in Hrun. cbn [world trace] in Hrun.
      destruct (perform (CheckCall (merge_cmd active)) w1) as [w2 [|e]];
        injection Hrun as <- <-; (split; [done|]); eexists;
        (split; [done|]); simpl; by rewrite <-!app_assoc.
    + injection Hrun as <- <-. split; [done|].
      simpl. by rewrite <-!app_assoc.
  - injection Hrun as <- <-. split; [done|].
    simpl. by rewrite <-!app_assoc.
Qed.

End Run.
End RunFacts.

(** ** From traces to operations on the store *)

Module TraceFacts.
Import Text Feed Effects Script History Plan RunFacts.

Lemma replay_run s t : replay s t = run s (ops t).
Proof.
  revert s. induction t as [|e t IH]; intros s; [done|].
  unfold ops; simpl. rewrite IH. unfold apply.
  by destruct (effective e).
Qed.

Lemma run_app s l1 l2 : run s (l1 ++ l2) = run (run s l1) l2.
Proof. apply foldl_app. Qed.

Lemma ops_app t1 t2 : ops (t1 ++ t2) = ops t1 ++ ops t2.
Proof. apply omap_app. Qed.

Lemma ops_cons e t :
  ops (e :: t) = match effective e with
                 | Some op => op :: ops t
                 | None => ops t
                 end.
Proof. done. Qed.

Lemma ops_printed lines : ops (map Printed lines) = [].
Proof. by induction lines. Qed.

Lemma ops_done l : ops (map (λ op, Did op Done) l) = omap parse_op l.
Proof.
  induction l as [|op l IH]; [done|].
  by rewrite map_cons, ops_cons, IH.
Qed.

Lemma omap_cons {A B} (f : A → option B) x l :
  omap f (x :: l) = match f x with
                    | Some y => y :: omap f l
                    | None => omap f l
                    end.
Proof. done. Qed.

Lemma omap_parse_op cs : omap parse_op (map CheckCall cs) = omap parse cs.
Proof.
  induction cs as [|c cs IH]; [done|].
  by rewrite map_cons, !omap_cons, IH.
Qed.

Lemma created_creates t : created t = creates (ops t).
Proof.
  induction t as [|e t IH]; [done|].
  unfold created in *. rewrite ops_cons, omap_cons, IH.
  by destruct (effective e) as [[]|].
Qed.

Lemma omap_prefix {A B} (f : A → option B) l1 l2 :
  l1 `prefix_of` l2 → omap f l1 `prefix_of` omap f l2.
Proof. intros [k ->]. rewrite omap_app. by eexists. Qed.

(** What the commands of the script mean. *)
Lemma parse_checkout name :
  parse (git ["git"; "checkout"; name] []) = Some (SwitchTo name).
Proof. done. Qed.

Lemma parse_checkout_b name :
  parse (git ["git"; "checkout"; "-b"; name] [])
  = Some (CreateTimeline name).
Proof. done. Qed.

Lemma parse_commit name timestamp commit :
  parse (commit_cmd name timestamp commit)
  = Some (RecordChange (subject_of name commit) timestamp).
Proof. done. Qed.

Lemma parse_merge active :
  parse (merge_cmd active)
  = Some (MergeTimelines (PySort.sorted (elements active))).
Proof. done. Qed.

Lemma parse_init_cmds first_date :
  omap parse (init_cmds first_date) = init_ops first_date.
Proof. done. Qed.

Lemma parse_event_cmds event st :
  omap parse (event_cmds event st) = event_ops event st.
Proof.
  unfold event_cmds, event_ops. rewrite omap_app. f_equal.
  - unfold checkout_cmds, checkout_ops. by case_bool_decide.
  - induction (sub_changes event) as [|c cs IH]; [done|].
    by rewrite !map_cons, omap_cons, parse_commit, IH.
Qed.

Lemma parse_loop_cmds events st :
  omap parse (loop_cmds events st) = loop_ops events st.
Proof.
  revert st. induction events as [|event events IH]; intros st; [done|].
  cbn [loop_cmds loop_ops]. rewrite omap_app, IH. f_equal.
  destruct (dropped event st); [done|]. apply parse_event_cmds.
Qed.

Section Run.
Context {W : Type} `{World W}.

(** The operations that took effect during a run of a list are a prefix
    of the list's, and all of them when the run returns. *)
Lemma run_all_ops l p r p' :
  run_all l p = (r, p') →
  ∃ done,
    ops (trace p') = ops (trace p) ++ done ∧
    done `prefix_of` omap parse_op l ∧
    (r = Ret tt → done = omap parse_op l).
Proof.
  intros Hrun.
  apply run_all_inv in Hrun as [[-> ->] | (k & op & e & Hk & -> & ->)].
  - exists (omap parse_op l). by rewrite ops_app, ops_done.
  - exists (omap parse_op (take k l)). split_and!; [| |done].
    + rewrite !ops_app, ops_done. unfold ops at 3; simpl.
      by rewrite app_nil_r.
    + apply omap_prefix, prefix_take.
Qed.

End Run.
End TraceFacts.

(** ** The store *)

Module StoreFacts.
Import Text TextFacts Feed Effects Script History Plan TraceFacts.

Lemma run_cons s op l : run s (op :: l) = run (step op s) l.
Proof. done. Qed.

Lemma recorded_insert (m : gmap string (list Change)) h n x k :
  recorded {| head := h; timelines := <[n := x]> m; merges := k |} n = x.
Proof. unfold recorded; simpl. by rewrite lookup_total_insert_eq. Qed.

Lemma recorded_insert_ne (m : gmap string (list Change)) h h' n n' x k k' :
  n ≠ n' →
  recorded {| head := h; timelines := <[n := x]> m; merges := k |} n'
  = recorded {| head := h'; timelines := m; merges := k' |} n'.
Proof. intros Hne. unfold recorded; simpl. by rewrite lookup_total_insert_ne. Qed.

(** Switching, creating and merging leave every list of changes as it
    is. *)
Lemma recorded_switch s name n :
  recorded (step (SwitchTo name) s) n = recorded s n.
Proof. done. Qed.

Lemma recorded_merge s names n :
  recorded (step (MergeTimelines names) s) n = recorded s n.
Proof. done. Qed.

Lemma recorded_create s name n :
  recorded (step (CreateTimeline name) s) n = recorded s n.
Proof.
  unfold recorded; simpl.
  destruct (timelines s !! name) as [changes|] eqn:Hname; [done|].
  destruct (decide (name = n)) as [<-|Hne].
  - rewrite lookup_total_insert_eq.
    by rewrite lookup_total_alt, Hname.
  - by rewrite lookup_total_insert_ne.
Qed.

(** Recording appends to the current timeline only. *)
Lemma recorded_commit s message date n :
  recorded (step (RecordChange message date) s) n
  = if decide (n = head s)
    then recorded s n ++ [{| subject := message; authoredAt := date |}]
    else recorded s n.
Proof.
  unfold step. case_decide as Hn.
  - subst n. apply recorded_insert.
  - by rewrite (recorded_insert_ne _ _ (head s) _ _ _ _ (merges s)).
Qed.

(** Renaming moves lists of changes around without changing any. *)
Lemma recorded_rename s name n :
  recorded (step (RenameCurrent name) s) n = []
  ∨ ∃ n', recorded (step (RenameCurrent name) s) n = recorded s n'.
Proof.
  unfold recorded; simpl.
  destruct (timelines s !! head s) as [changes|] eqn:Hhead.
  - destruct (decide (name = n)) as [<-|Hne].
    + right. exists (head s).
      by rewrite lookup_total_insert_eq, (lookup_total_alt _ (head s)), Hhead.
    + rewrite lookup_total_insert_ne by done.
      destruct (decide (head s = n)) as [<-|Hne'].
      * left. by rewrite lookup_total_alt, lookup_delete_eq.
      * right. exists n. by rewrite !lookup_total_alt, lookup_delete_ne.
  - destruct (decide (name = n)) as [<-|Hne].
    + left. by rewrite lookup_total_alt, lookup_delete_eq.
    + right. exists n. by rewrite !lookup_total_alt, lookup_delete_ne.
Qed.

Lemma head_step op s :
  head (step op s) = match op with
                     | RenameCurrent name | SwitchTo name
                     | CreateTimeline name => name
                     | _ => head s
                     end.
Proof. by destruct op. Qed.

(** A run of commits on the current timeline. *)
Lemma run_commits {A} (subject : A → string) date (l : list A) s :
  let s' := run s (map (λ a, RecordChange (subject a) date) l) in
  head s' = head s ∧
  ∀ n, recorded s' n
       = if decide (n = head s)
         then recorded s n
              ++ map (λ a, {| subject := subject a; authoredAt := date |}) l
         else recorded s n.
Proof.
  cbv zeta. revert s. induction l as [|a l IH]; intros s.
  - split; [done|]. intros n. simpl. case_decide; by rewrite ?app_nil_r.
  - rewrite !map_cons, run_cons.
    destruct (IH (step (RecordChange (subject a) date) s)) as [Hhead Hrec].
    split; [by rewrite Hhead|]. intros n.
    rewrite Hrec, recorded_commit. rewrite head_step.
    case_decide; [|done]. by rewrite <-app_assoc.
Qed.

(** What replaying one event does to the store. *)
Lemma run_event_ops event st s :
  let s' := run s (event_ops event st) in
  let name := timeline_of event in
  head s' = name ∧
  recorded s' name
  = recorded s name ++ map (change_of name (created_at event))
                           (sub_changes event) ∧
  ∀ n, n ≠ name → recorded s' n = recorded s n.
Proof.
  cbv zeta. unfold event_ops. rewrite run_app.
  set (s1 := run s (checkout_ops (timeline_of event) st)).
  assert (Hs1 : head s1 = timeline_of event
                ∧ ∀ n, recorded s1 n = recorded s n).
  { unfold s1, checkout_ops. case_bool_decide; [|done].
    rewrite !run_cons. split; [done|]. intros n.
    change (run ?x []) with x. by rewrite recorded_create. }
  destruct Hs1 as [Hhead Hsame].
  destruct (run_commits (subject_of (timeline_of event)) (created_at event)
              (sub_changes event) s1) as [Hhead' Hrec].
  split_and!.
  - by rewrite Hhead'.
  - rewrite Hrec, Hhead, decide_True by done. by rewrite Hsame.
  - intros n Hn. rewrite Hrec, Hhead, decide_False by done. apply Hsame.
Qed.

Lemma sub_changes_nonempty event : sub_changes event ≠ [].
Proof. unfold sub_changes. by destruct (default [] (commits event)). Qed.

Lemma sub_changes_length event :
  length (sub_changes event)
  = max 1 (length (default [] (commits event))).
Proof.
  unfold sub_changes. destruct (default [] (commits event)); simpl; lia.
Qed.

End StoreFacts.

(** ** The three sets of the loop *)

Module AllocFacts.
Import Text Feed Effects Script History Plan TraceFacts StoreFacts.

Lemma agree_empty : agree empty_alloc.
Proof. done. Qed.

Lemma within_cap_empty : within_cap empty_alloc.
Proof.
  unfold within_cap, MAX_REPOS, empty_alloc; cbn [repos_seen].
  rewrite size_empty. lia.
Qed.

Lemma dropped_spec event st :
  dropped event st = true ↔
  ((timeline_of event ∉ repos_seen st)
   ∧ MAX_REPOS ≤ size (repos_seen st)).
Proof.
  unfold dropped. by rewrite andb_true_iff, !bool_decide_eq_true.
Qed.

Lemma not_dropped_spec event st :
  dropped event st = false ↔
  (timeline_of event ∈ repos_seen st ∨ size (repos_seen st) < MAX_REPOS).
Proof.
  rewrite <-not_true_iff_false, dropped_spec. split.
  - intros Hnot.
    destruct (decide (timeline_of event ∈ repos_seen st)); [by left|].
    right. apply Nat.lt_nge. naive_solver.
  - intros [Hin | Hlt] [Hnotin Hfull]; [done|lia].
Qed.

Lemma next_agree event st : agree st → agree (next event st).
Proof.
  intros [Hseen Hactive]. unfold agree, next; simpl.
  rewrite Hseen, Hactive. by case_bool_decide.
Qed.

Lemma advance_agree event st : agree st → agree (advance event st).
Proof.
  unfold advance. destruct (dropped event st); [done|]. apply next_agree.
Qed.

Lemma advance_within_cap event st :
  within_cap st → within_cap (advance event st).
Proof.
  unfold advance, within_cap.
  destruct (dropped event st) eqn:Hdrop; [done|].
  apply not_dropped_spec in Hdrop. unfold next; simpl.
  case_bool_decide as Hseen; [|done]. intros _.
  destruct Hdrop as [?|Hlt]; [done|].
  rewrite size_union by set_solver. rewrite size_singleton. lia.
Qed.

Lemma loop_state_agree events st : agree st → agree (loop_state events st).
Proof.
  revert st. induction events as [|event events IH]; intros st; [done|].
  intros Hst. apply IH. by apply advance_agree.
Qed.

Lemma loop_state_within_cap events st :
  within_cap st → within_cap (loop_state events st).
Proof.
  revert st. induction events as [|event events IH]; intros st; [done|].
  intros Hst. apply IH. by apply advance_within_cap.
Qed.

(** The sets only grow. *)
Lemma advance_mono event st :
  repos_seen st ⊆ repos_seen (advance event st)
  ∧ created_branches st ⊆ created_branches (advance event st)
  ∧ active_branches st ⊆ active_branches (advance event st).
Proof.
  unfold advance. destruct (dropped event st); [done|].
  unfold next; simpl. repeat case_bool_decide; set_solver.
Qed.

Lemma loop_state_mono events st :
  repos_seen st ⊆ repos_seen (loop_state events st)
  ∧ created_branches st ⊆ created_branches (loop_state events st)
  ∧ active_branches st ⊆ active_branches (loop_state events st).
Proof.
  revert st. induction events as [|event events IH]; intros st; [done|].
  simpl. destruct (advance_mono event st) as (? & ? & ?).
  destruct (IH (advance event st)) as (? & ? & ?).
  split_and!; by etrans.
Qed.

(** An event that is not dropped has its name in all three sets. *)
Lemma next_elem_of event st :
  timeline_of event ∈ repos_seen (next event st)
  ∧ timeline_of event ∈ created_branches (next event st).
Proof. unfold next; simpl. repeat case_bool_decide; set_solver. Qed.

(** A first event is never dropped, so the sets are not empty after a
    loop over at least one event. *)
Lemma loop_state_nonempty event events :
  active_branches (loop_state (event :: events) empty_alloc) ≠ ∅.
Proof.
  simpl. unfold advance.
  assert (dropped event empty_alloc = false) as ->.
  { apply not_dropped_spec. right. unfold empty_alloc; cbn [repos_seen].
    rewrite size_empty. unfold MAX_REPOS. lia. }
  destruct (loop_state_mono events (next event empty_alloc)) as (_ & _ & Hsub).
  assert (timeline_of event ∈ active_branches (next event empty_alloc))
    as Hin.
  { unfold next; simpl. rewrite bool_decide_eq_true_2 by apply not_elem_of_empty.
    apply elem_of_union_r, elem_of_singleton. done. }
  intros Hempty. apply Hsub in Hin. rewrite Hempty in Hin.
  by apply not_elem_of_empty in Hin.
Qed.

(** Once the cap is reached the set of seen names stays as it is. *)
Lemma advance_full event st :
  MAX_REPOS ≤ size (repos_seen st) →
  repos_seen (advance event st) = repos_seen st.
Proof.
  intros Hfull. unfold advance.
  destruct (dropped event st) eqn:Hdrop; [done|].
  apply not_dropped_spec in Hdrop as [Hin | Hlt]; [|lia].
  unfold next; simpl. by rewrite bool_decide_eq_false_2 by set_solver.
Qed.

(** The timelines the loop creates. *)
Lemma creates_app l1 l2 : creates (l1 ++ l2) = creates l1 ++ creates l2.
Proof. apply omap_app. Qed.

Lemma creates_event_ops event st :
  creates (event_ops event st)
  = if bool_decide (timeline_of event ∉ created_branches st)
    then [timeline_of event] else [].
Proof.
  unfold event_ops, checkout_ops. rewrite creates_app.
  assert (creates (map (λ commit,
              RecordChange (subject_of (timeline_of event) commit)
                           (created_at event)) (sub_changes event)) = [])
    as ->.
  { by induction (sub_changes event). }
  rewrite app_nil_r. by case_bool_decide.
Qed.

Lemma creates_loop_ops_length events st :
  length (creates (loop_ops events st)) + size (created_branches st)
  = size (created_branches (loop_state events st)).
Proof.
  revert st. induction events as [|event events IH]; intros st; [done|].
  cbn [loop_ops loop_state]. rewrite creates_app, length_app, <-IH.
  unfold advance. destruct (dropped event st); [done|].
  rewrite creates_event_ops. unfold next; simpl.
  case_bool_decide; simpl; [|lia].
  rewrite size_union by set_solver. rewrite size_singleton. lia.
Qed.

Lemma creates_loop_ops_elem_of events st n :
  n ∈ creates (loop_ops events st) →
  n ∈ created_branches (loop_state events st).
Proof.
  revert st. induction events as [|event events IH]; intros st.
  - by intros ?%elem_of_nil.
  - cbn [loop_ops loop_state]. rewrite creates_app, elem_of_app.
    intros [Hn | Hn]; [|by apply IH].
    destruct (loop_state_mono events (advance event st)) as (_ & Hsub & _).
    apply Hsub. unfold advance.
    destruct (dropped event st); [by apply elem_of_nil in Hn|].
    rewrite creates_event_ops in Hn.
    case_bool_decide; [|by apply elem_of_nil in Hn].
    apply list_elem_of_singleton in Hn as ->. apply next_elem_of.
Qed.

(** With the three sets in agreement, the names in them are those of the
    events kept. *)
Lemma kept_elem_of events st event :
  agree st →
  event ∈ kept events st →
  event ∈ events ∧ timeline_of event ∈ repos_seen (loop_state events st).
Proof.
  revert st. induction events as [|e events IH]; intros st Hst.
  - by intros ?%elem_of_nil.
  - cbn [kept loop_state]. unfold advance at 1.
    destruct (dropped e st) eqn:Hdrop.
    + intros Hin. destruct (IH st Hst Hin) as [? Hseen]. split; [by right|].
      unfold advance. by rewrite Hdrop.
    + intros [->|Hin]%elem_of_cons.
      * split; [by left|].
        destruct (loop_state_mono events (advance e st)) as (Hsub & _).
        apply Hsub. unfold advance. rewrite Hdrop. apply next_elem_of.
      * destruct (IH (next e st) (next_agree _ _ Hst) Hin) as [? Hseen].
        split; [by right|]. unfold advance. by rewrite Hdrop.
Qed.

Lemma loop_state_full events st :
  MAX_REPOS ≤ size (repos_seen st) →
  repos_seen (loop_state events st) = repos_seen st.
Proof.
  revert st. induction events as [|event events IH]; intros st Hfull; [done|].
  cbn [loop_state]. rewrite IH; rewrite advance_full; done.
Qed.

(** The events kept are those whose name is among the names seen when the
    loop ends. *)
Lemma kept_iff events st event :
  agree st →
  event ∈ kept events st ↔
  event ∈ events ∧ timeline_of event ∈ repos_seen (loop_state events st).
Proof.
  intros Hst. split; [by apply kept_elem_of|].
  revert st Hst. induction events as [|e events IH]; intros st Hst.
  - by intros [?%elem_of_nil _].
  - cbn [kept loop_state]. unfold advance.
    destruct (dropped e st) eqn:Hdrop.
    + intros [[-> | Hin]%elem_of_cons Hseen]; [|by apply IH].
      apply dropped_spec in Hdrop as [Hnew Hfull].
      by rewrite loop_state_full in Hseen.
    + intros [[-> | Hin]%elem_of_cons Hseen]; [left|right].
      apply IH; [by apply next_agree|done].
Qed.

End AllocFacts.

(** ** What the loop records *)

Module LoopFacts.
Import Text TextFacts Feed Effects Script History Plan.
Import TraceFacts StoreFacts AllocFacts.

(** The changes on a timeline after the loop: those before it, then those
    of the kept events of that timeline, event by event. *)
Lemma run_loop_ops_recorded events st s n :
  recorded (run s (loop_ops events st)) n
  = recorded s n ++ loop_changes events st n.
Proof.
  unfold loop_changes.
  revert st s. induction events as [|event events IH]; intros st s.
  - by rewrite app_nil_r.
  - cbn [loop_ops kept]. rewrite run_app. unfold advance.
    destruct (dropped event st); [apply IH|].
    rewrite IH, filter_cons.
    destruct (run_event_ops event st s) as (_ & Hname & Hother).
    case_decide as Hn.
    + subst n. rewrite Hname. cbn [flat_map]. by rewrite <-app_assoc.
    + by rewrite Hother.
Qed.

Lemma commit_dates_app l1 l2 :
  commit_dates (l1 ++ l2) = commit_dates l1 ++ commit_dates l2.
Proof. apply omap_app. Qed.

Lemma commit_dates_event_ops event st :
  commit_dates (event_ops event st)
  = map (λ _, created_at event) (sub_changes event).
Proof.
  unfold event_ops, checkout_ops. rewrite commit_dates_app.
  assert (commit_dates
            (if bool_decide (timeline_of event ∉ created_branches st)
             then [SwitchTo "main"; CreateTimeline (timeline_of event)]
             else [SwitchTo (timeline_of event)]) = []) as ->.
  { by case_bool_decide. }
  rewrite app_nil_l.
  induction (sub_changes event) as [|c cs IH]; [done|].
  rewrite !map_cons. unfold commit_dates in *. by rewrite omap_cons, IH.
Qed.

(** The loop records in the order of the events: over events ascending in
    [created_at], the dates it stamps are ascending, and each is the date
    of one of the events. *)
Lemma loop_dates_ascending events st :
  PySort.ascending created_at events →
  StronglySorted le (commit_dates (loop_ops events st))
  ∧ Forall (λ d, ∃ event, event ∈ events ∧ d = created_at event)
           (commit_dates (loop_ops events st)).
Proof.
  unfold PySort.ascending.
  revert st. induction events as [|event events IH]; intros st Hsorted.
  - split; constructor.
  - apply StronglySorted_cons in Hsorted as [Hfirst Hsorted].
    destruct (IH (advance event st) Hsorted) as [IHs IHd].
    cbn [loop_ops]. rewrite commit_dates_app.
    assert (Hhere : Forall (λ d, d = created_at event)
              (commit_dates (if dropped event st then []
                             else event_ops event st))).
    { destruct (dropped event st); [constructor|].
      rewrite commit_dates_event_ops. apply Forall_forall.
      by intros d (? & -> & _)%list_elem_of_fmap. }
    split.
    + apply StronglySorted_app. split_and!; [|idtac|done].
      * intros d d' Hd Hd'.
        rewrite Forall_forall in Hhere. rewrite (Hhere d Hd).
        rewrite Forall_forall in IHd.
        destruct (IHd d' Hd') as (e & He & ->).
        rewrite Forall_forall in Hfirst. by apply Hfirst.
      * clear -Hhere.
        induction Hhere as [|d l -> Hl IHl]; [constructor|].
        constructor; [done|].
        eapply Forall_impl; [exact Hl|]. intros ? ->. apply le_refl.
    + apply Forall_app. split.
      * eapply Forall_impl; [exact Hhere|].
        intros d ->. exists event. split; [left|done].
      * eapply Forall_impl; [exact IHd|].
        intros d (e & He & ->). exists e. split; [by right|done].
Qed.

(** Operations whose dates ascend keep every timeline ascending. *)
Lemma run_timestamps_ascending l s :
  StronglySorted le (commit_dates l) →
  (∀ n, StronglySorted le (timestamps s n)) →
  (∀ n d d', d ∈ timestamps s n → d' ∈ commit_dates l → le d d') →
  ∀ n, StronglySorted le (timestamps (run s l) n).
Proof.
  revert s. induction l as [|op l IH]; intros s Hdates Hsorted Hbelow; [done|].
  rewrite run_cons.
  assert (Hkeep : ∀ l', commit_dates (op :: l) = commit_dates l' →
    (∀ n, recorded (step op s) n = []
          ∨ ∃ n', recorded (step op s) n = recorded s n') →
    commit_dates l' = commit_dates l →
    ∀ n, StronglySorted le (timestamps (run (step op s) l) n)).
  { intros l' Hsame Hmoved Hl'. rewrite Hsame, Hl' in *.
    apply IH; [done|..].
    - intros n. unfold timestamps.
      destruct (Hmoved n) as [-> | [n' ->]]; [constructor|apply Hsorted].
    - intros n d d'. unfold timestamps.
      destruct (Hmoved n) as [-> | [n' ->]]; [by intros ?%elem_of_nil|].
      apply Hbelow. }
  destruct op as [message date|name|name|name|names].
  - unfold commit_dates in Hdates, Hbelow. rewrite omap_cons in Hdates, Hbelow.
    fold (commit_dates l) in Hdates, Hbelow.
    apply StronglySorted_cons in Hdates as [Hdate Hdates].
    apply IH; [done|..].
    + intros n. unfold timestamps. rewrite recorded_commit.
      case_decide; [|apply Hsorted].
      rewrite map_app. apply StronglySorted_app. split_and!.
      * intros d d' Hd ->%list_elem_of_singleton.
        apply (Hbelow n); [done|left].
      * apply Hsorted.
      * repeat constructor.
    + intros n d d'. unfold timestamps. rewrite recorded_commit.
      intros Hd Hd'.
      assert (d ∈ timestamps s n ∨ d = date) as [Hold | ->].
      { case_decide; [|by left]. rewrite map_app, elem_of_app in Hd.
        destruct Hd as [? | ->%list_elem_of_singleton]; [by left|by right]. }
      * apply (Hbelow n); [done|by right].
      * rewrite Forall_forall in Hdate. by apply Hdate.
  - apply (Hkeep l); [done| |done]. intros n. apply recorded_rename.
  - apply (Hkeep l); [done| |done]. intros n. right. by exists n.
  - apply (Hkeep l); [done| |done]. intros n. right. exists n.
    apply recorded_create.
  - apply (Hkeep l); [done| |done]. intros n. right. by exists n.
Qed.

End LoopFacts.

(** ** The operations of a whole run *)

Module MainFacts.
Import Text TextFacts Feed Effects Script History Plan.
Import RunFacts TraceFacts StoreFacts AllocFacts LoopFacts.

Lemma parse_build_ops present first_event rest :
  omap parse_op (build_ops present (first_event :: rest))
  = init_ops (created_at first_event)
    ++ loop_ops (first_event :: rest) empty_alloc.
Proof.
  unfold build_ops. rewrite omap_app.
  assert (omap parse_op (if present then [Rmtree OUTPUT_REPO_DIR] else [])
          = []) as -> by (by destruct present).
  rewrite app_nil_l, omap_cons. cbn [parse_op].
  by rewrite omap_parse_op, omap_app, parse_init_cmds, parse_loop_cmds.
Qed.

Section Run.
Context {W : Type} `{World W}.

Lemma merge_branches_ops active p r p' :
  merge_branches active p = (r, p') →
  ∃ tail,
    ops (trace p') = ops (trace p) ++ tail ∧
    match r with
    | Ret _ =>
        tail = [SwitchTo "main"]
        ∨ tail = [SwitchTo "main";
                  MergeTimelines (PySort.sorted (elements active))]
    | Raise _ => tail = []
    end.
Proof.
  intros (w1 & o1 & _ & Hcases)%merge_branches_inv.
  destruct o1 as [|e].
  - destruct Hcases as [-> Hcases]. case_bool_decide.
    + destruct Hcases as (o2 & _ & ->). rewrite ops_app.
      destruct o2; eexists; (split; [done|]); [by right|by left].
    + rewrite Hcases, ops_app. eexists. split; [done|]. by left.
  - destruct Hcases as [-> ->]. rewrite ops_app. by eexists.
Qed.

Lemma print_ops line (p p' : Proc W) r :
  print line p = (r, p') → r = Ret tt ∧ ops (trace p') = ops (trace p).
Proof.
  intros [= <- <-]. split; [done|]. simpl.
  by rewrite ops_app, app_nil_r.
Qed.

Lemma printed_ops lines (p : Proc W) :
  ops (trace (printed lines p)) = ops (trace p).
Proof. simpl. by rewrite ops_app, ops_printed, app_nil_r. Qed.

(** The operations that took effect in a run of [main] are a prefix of
    those of the run without failures. *)
Lemma main_ops_prefix resp p r p' :
  main resp p = (r, p') →
  ∃ done,
    ops (trace p') = ops (trace p) ++ done ∧
    done `prefix_of` match resp with
                     | Fetched events => main_ops events
                     | FetchFailed _ => []
                     end.
Proof.
  destruct resp as [events|e].
  - unfold main_ops.
    destruct (push_events events) as [|first_event rest] eqn:Hpushes.
    + rewrite main_no_push by done. intros [= <- <-].
      exists []. by rewrite printed_ops, app_nil_r.
    + rewrite main_plan by (by rewrite Hpushes). cbv zeta.
      rewrite Hpushes.
      destruct (run_all _ _) as [r1 p1] eqn:Hbuild.
      apply run_all_ops in Hbuild as (done1 & Hops1 & Hprefix & Hall).
      rewrite printed_ops, parse_build_ops in *.
      destruct r1 as [[]|x].
      * rewrite (Hall eq_refl) in Hops1. unfold bind.
        destruct (merge_branches _ p1) as [r2 p2] eqn:Hmerge.
        apply merge_branches_ops in Hmerge as (tail & Hops2 & Htail).
        destruct r2 as [[]|x].
        -- intros [_ Hops3]%print_ops.
           rewrite Hops3, Hops2, Hops1, <-app_assoc.
           eexists. split; [done|]. rewrite <-app_assoc.
           do 2 apply prefix_app.
           destruct Htail as [-> | ->]; [by eexists|done].
        -- intros [= <- <-]. rewrite Hops2, Hops1, Htail, app_nil_r.
           eexists. split; [done|]. rewrite app_assoc.
           apply prefix_app_r. done.
      * intros [= <- <-]. exists done1. split; [done|].
        etrans; [exact Hprefix|]. rewrite app_assoc.
        by apply prefix_app_r.
  - rewrite main_fetch_failed. intros [= <- <-].
    exists []. by rewrite printed_ops, app_nil_r.
Qed.

(** When [main] returns, all of them took effect, up to the merge. *)
Lemma main_ops_returned events p p' :
  main (Fetched events) p = (Ret tt, p') →
  ∃ first_event rest tail,
    push_events events = first_event :: rest ∧
    ops (trace p')
    = ops (trace p)
      ++ init_ops (created_at first_event)
      ++ loop_ops (first_event :: rest) empty_alloc
      ++ SwitchTo "main" :: tail ∧
    (tail = [] ∨ ∃ names, tail = [MergeTimelines names]).
Proof.
  destruct (push_events events) as [|first_event rest] eqn:Hpushes.
  - by rewrite main_no_push by done.
  - rewrite main_plan by (by rewrite Hpushes). cbv zeta.
    rewrite Hpushes.
    destruct (run_all _ _) as [r1 p1] eqn:Hbuild.
    apply run_all_ops in Hbuild as (done1 & Hops1 & Hprefix & Hall).
    rewrite printed_ops, parse_build_ops in *.
    destruct r1 as [[]|x]; [|done].
    rewrite (Hall eq_refl) in Hops1. unfold bind.
    destruct (merge_branches _ p1) as [r2 p2] eqn:Hmerge.
    apply merge_branches_ops in Hmerge as (tail & Hops2 & Htail).
    destruct r2 as [[]|x]; [|done].
    intros [_ Hops3]%print_ops.
    exists first_event, rest. rewrite Hops3, Hops2, Hops1, <-!app_assoc.
    destruct Htail as [-> | ->]; eexists; (split; [done|]);
      (split; [done|]); [by left|right; by eexists].
Qed.

End Run.
End MainFacts.

(** ** Whole runs and the store *)

Module OutcomeFacts.
Import Text TextFacts Feed Effects Script History Plan.
Import PySortFacts RunFacts TraceFacts StoreFacts AllocFacts LoopFacts MainFacts.

Lemma attempted_app t1 t2 : attempted (t1 ++ t2) = attempted t1 ++ attempted t2.
Proof. apply omap_app. Qed.

(** What a completed, not skipped, pass through the loop body does to the
    store. *)
Lemma replay_event_store {W} `{World W}
    (event : Event) (st st' : Alloc) (p p' : Proc W) (s : Store) :
  dropped event st = false →
  replay_event event st p = (Ret st', p') →
  st' = next event st
  ∧ replay s (trace p') = run (replay s (trace p)) (event_ops event st).
Proof.
  intros Hkept. rewrite replay_event_plan, Hkept.
  destruct (run_all _ p) as [r1 p1] eqn:Hrun.
  apply run_all_ops in Hrun as (done & Hops & _ & Hall).
  destruct r1 as [[]|x]; [|done]. intros [= <- <-]. split; [done|].
  rewrite !replay_run, Hops, run_app, (Hall eq_refl).
  by rewrite omap_parse_op, parse_event_cmds.
Qed.

(** The dates stamped by a run of [main] without failures ascend. *)
Lemma main_ops_dates_ascending (events : list Event) :
  StronglySorted Text.le (commit_dates (main_ops events)).
Proof.
  unfold main_ops.
  destruct (push_events events) as [|first_event rest] eqn:Hpushes;
    [constructor|].
  pose proof (sort_ascending created_at
                (filter (λ e, type e = "PushEvent") events)) as Hsorted.
  fold (push_events events) in Hsorted. rewrite Hpushes in Hsorted.
  destruct (loop_dates_ascending (first_event :: rest) empty_alloc Hsorted)
    as [Hloop Hfrom].
  rewrite !commit_dates_app.
  change (commit_dates (init_ops (created_at first_event)))
    with [created_at first_event].
  change (commit_dates [SwitchTo _; MergeTimelines _]) with (@nil string).
  rewrite app_nil_r. cbn [app]. constructor; [done|].
  eapply Forall_impl; [exact Hfrom|]. intros d (e & He & ->).
  apply StronglySorted_cons in Hsorted as [Hfirst _].
  apply elem_of_cons in He as [-> | He]; [apply le_refl|].
  rewrite Forall_forall in Hfirst. by apply Hfirst.
Qed.

(** The final checkout and merge leave the recorded changes alone. *)
Lemma run_tail_recorded s tail n :
  tail = [] ∨ (∃ names, tail = [MergeTimelines names]) →
  recorded (run s (SwitchTo "main" :: tail)) n = recorded s n.
Proof. by intros [-> | [names ->]]. Qed.

(** The changes of a kept event are a block of the changes the loop puts
    on the event's timeline. *)
Lemma loop_changes_block events st event :
  event ∈ kept events st →
  ∃ before after,
    loop_changes events st (timeline_of event)
    = before ++ changes_of event ++ after.
Proof.
  intros Hkept. unfold loop_changes.
  assert (event ∈ filter (λ e, timeline_of e = timeline_of event)
                         (kept events st)) as Hin.
  { by apply list_elem_of_filter. }
  apply list_elem_of_split in Hin as (l1 & l2 & ->).
  exists (flat_map changes_of l1), (flat_map changes_of l2).
  by rewrite flat_map_app.
Qed.

(** A name in the sets after the loop was there before, or is the name of
    an event kept, for which the loop created the timeline. *)
Lemma loop_state_seen_elem_of events st n :
  n ∈ repos_seen (loop_state events st) →
  n ∈ repos_seen st ∨ ∃ event, event ∈ kept events st ∧ timeline_of event = n.
Proof.
  revert st. induction events as [|event events IH]; intros st; [by left|].
  cbn [loop_state kept]. unfold advance.
  destruct (dropped event st); [apply IH|].
  intros [Hn | (e & He & <-)]%IH.
  - unfold next in Hn; simpl in Hn.
    destruct (decide (n = timeline_of event)) as [-> | Hne].
    + right. exists event. split; [left|done].
    + left. case_bool_decide; [|done].
      apply elem_of_union in Hn as [? | ?%elem_of_singleton]; done.
  - right. exists e. split; [by right|done].
Qed.

Lemma loop_state_created_elem_of events st n :
  n ∈ created_branches (loop_state events st) →
  n ∈ created_branches st ∨ n ∈ creates (loop_ops events st).
Proof.
  revert st. induction events as [|event events IH]; intros st; [by left|].
  cbn [loop_state loop_ops]. rewrite creates_app, elem_of_app. unfold advance.
  destruct (dropped event st); [intros [?|?]%IH; auto|].
  intros [Hn | Hn]%IH; [|auto].
  rewrite creates_event_ops. unfold next in Hn; simpl in Hn.
  case_bool_decide; [|by left].
  apply elem_of_union in Hn as [Hn | ->%elem_of_singleton]; [by left|].
  right. left. left.
Qed.

(** The store after the root commit and the renaming of the branch. *)
Lemma run_init_ops_recorded initial_branch first_date n :
  recorded (run (fresh initial_branch) (init_ops first_date)) n
  = if decide (n = "main") then [root_change first_date] else [].
Proof.
  unfold init_ops, run, fresh, recorded; simpl.
  rewrite lookup_insert_eq. case_decide as Hn.
  - subst n. by rewrite lookup_total_insert_eq.
  - rewrite lookup_total_insert_ne by done.
    rewrite lookup_total_alt.
    destruct (decide (initial_branch = n)) as [<- | Hne].
    + by rewrite lookup_delete_eq.
    + by rewrite lookup_delete_ne, lookup_insert_ne, lookup_empty.
Qed.

(** The operations that fail in a run. *)
Lemma failures_app t1 t2 : failures (t1 ++ t2) = failures t1 ++ failures t2.
Proof. apply omap_app. Qed.

Lemma failures_done l : failures (map (λ op, Did op Done) l) = [].
Proof. by induction l. Qed.

Lemma failures_printed lines : failures (map Printed lines) = [].
Proof. by induction lines. Qed.

Lemma not_merge_checkout name rest env :
  ¬ is_merge (CheckCall (git ("git" :: "checkout" :: name :: rest) env)).
Proof. by intros [names [=]]. Qed.

Lemma not_merge_loop_cmds events st c :
  c ∈ loop_cmds events st → ¬ is_merge (CheckCall c).
Proof.
  revert st. induction events as [|event events IH]; intros st.
  - by intros ?%elem_of_nil.
  - cbn [loop_cmds]. intros [Hc | Hc]%elem_of_app; [|by eapply IH].
    destruct (dropped event st); [by apply elem_of_nil in Hc|].
    unfold event_cmds, checkout_cmds in Hc.
    apply elem_of_app in Hc as [Hc | (commit & -> & _)%list_elem_of_fmap].
    + case_bool_decide; set_unfold; destruct Hc as [-> | Hc];
        try destruct Hc as [-> | []]; try apply not_merge_checkout.
      by intros [names [=]].
    + by intros [names [=]].
Qed.

Lemma not_merge_build_ops present events op :
  op ∈ build_ops present events → ¬ is_merge op.
Proof.
  unfold build_ops. destruct events as [|first_event rest].
  - by intros ?%elem_of_nil.
  - intros [Hop | Hop]%elem_of_app.
    + destruct present; set_unfold; [|done].
      destruct Hop as [-> | []]. by intros [].
    + apply elem_of_cons in Hop as [-> | Hop]; [by intros []|].
      apply list_elem_of_fmap in Hop as (c & -> & Hc).
      apply elem_of_app in Hc as [Hc | Hc]; [|by eapply not_merge_loop_cmds].
      unfold init_cmds in Hc. set_unfold.
      by destruct Hc as [-> | [-> | [-> | [-> | [-> | []]]]]];
        intros [names [=]].
Qed.

Lemma is_merge_merge_cmd active : is_merge (CheckCall (merge_cmd active)).
Proof. by eexists. Qed.

(** How a run of [main] over a feed with a push event ends: it returns
    when nothing but the merge failed, and raises the exception of the
    first other operation that fails. *)
Lemma main_outcome {W} `{World W} (events : list Event) (p : Proc W) r p' :
  push_events events ≠ [] →
  main (Fetched events) p = (r, p') →
  ∃ failed,
    failures (trace p') = failures (trace p) ++ failed
    ∧ ((r = Ret tt ∧ Forall is_merge failed)
       ∨ (∃ e op, r = Raise (Error e) ∧ op ∈ failed ∧ ¬ is_merge op)).
Proof.
  intros Hsome. rewrite main_plan by done. cbv zeta.
  destruct (run_all _ _) as [r1 p1] eqn:Hbuild.
  apply run_all_inv in Hbuild
    as [[-> Ht1] | (k & op & e & Hk & -> & Ht1)].
  - unfold bind.
    destruct (merge_branches _ p1) as [r2 p2] eqn:Hmerge.
    apply merge_branches_inv in Hmerge as (w1 & o1 & _ & Hcases).
    destruct o1 as [|e].
    + destruct Hcases as [-> Ht2]. intros [= <- <-].
      cbn [trace]. rewrite failures_app.
      assert (∃ failed, failures (trace p2) = failures (trace p) ++ failed
                        ∧ Forall is_merge failed) as (failed & -> & Hfailed).
      { case_bool_decide.
        - destruct Ht2 as (o2 & _ & ->).
          rewrite !failures_app, Ht1, failures_app, failures_done.
          unfold printed; cbn [trace].
          rewrite failures_app, failures_printed, !app_nil_r.
          destruct o2 as [|e].
          + exists []. split; [reflexivity|constructor].
          + eexists [_]. split; [reflexivity|].
            constructor; [apply is_merge_merge_cmd|constructor].
        - rewrite Ht2, failures_app, Ht1, failures_app, failures_done.
          unfold printed; cbn [trace].
          rewrite failures_app, failures_printed, !app_nil_r.
          exists []. split; [by rewrite app_nil_r|constructor]. }
      exists failed. split; [by rewrite app_nil_r|]. by left.
    + destruct Hcases as [-> Ht2]. intros [= <- <-].
      exists [CheckCall checkout_main]. split.
      * rewrite Ht2, failures_app, Ht1, failures_app, failures_done.
        unfold printed; cbn [trace].
        by rewrite failures_app, failures_printed, !app_nil_r.
      * right. exists e, (CheckCall checkout_main).
        split_and!; [done|left|]. apply not_merge_checkout.
  - intros [= <- <-]. exists [op]. split.
    + rewrite Ht1, !failures_app, failures_done.
      unfold printed; cbn [trace].
      by rewrite failures_app, failures_printed, !app_nil_r.
    + right. exists e, op. split_and!; [done|left|].
      eapply not_merge_build_ops. by eapply list_elem_of_lookup_2.
Qed.

End OutcomeFacts.

(** ** The terms of the specification *)

Module TermsFacts.
Import Text Terms.

(** The script's [split("\n")[0]] is the first line. *)
Lemma first_piece_firstLineOf s : first_piece newline s = firstLineOf s.
Proof.
  unfold first_piece. induction s as [|c s IH]; [done|]. simpl.
  destruct (Ascii.eqb c newline); [done|].
  destruct (split newline s) as [|piece rest]; simpl in *; by rewrite <-IH.
Qed.

End TermsFacts.

Module Iso8601Facts.
Import Iso8601.
Local Open Scope Z_scope.

Lemma digit_range c v : digit c = Some v → 0 ≤ v ≤ 9.
Proof. unfold digit. case_bool_decide; [|done]. intros [= <-]. lia. Qed.

(** Digits compare as their values. *)
Lemma digit_compare a b x y :
  digit a = Some x → digit b = Some y → Ascii.compare a b = (x ?= y).
Proof.
  unfold digit, Ascii.compare. repeat case_bool_decide; try done.
  intros [= <-] [= <-]. rewrite <-N2Z.inj_compare.
  generalize (Z.of_N (N_of_ascii a)), (Z.of_N (N_of_ascii b)). intros m n.
  destruct (Z.compare_spec m n), (Z.compare_spec (m - 48) (n - 48));
    try done; lia.
Qed.

Lemma days_before_month_step y m :
  1 ≤ m ≤ 12 →
  days_before_month y (m + 1) = days_before_month y m + days_in_month y m.
Proof.
  intros Hm.
  assert (m = 1 ∨ m = 2 ∨ m = 3 ∨ m = 4 ∨ m = 5 ∨ m = 6 ∨ m = 7 ∨ m = 8
          ∨ m = 9 ∨ m = 10 ∨ m = 11 ∨ m = 12) as Hcases by lia.
  unfold days_before_month, days_in_month.
  destruct_or!; subst m; destruct (leap y); reflexivity.
Qed.

Lemma days_in_month_pos y m : 28 ≤ days_in_month y m.
Proof.
  unfold days_in_month.
  repeat match goal with
         | |- context [match ?x with _ => _ end] => destruct x
         end; lia.
Qed.

Lemma days_before_month_mono y m m' :
  1 ≤ m → m < m' → m' ≤ 13 →
  days_before_month y m + days_in_month y m ≤ days_before_month y m'.
Proof.
  intros Hm Hlt Hm'.
  assert (∀ n : nat, m + 1 + Z.of_nat n ≤ 13 →
            days_before_month y m + days_in_month y m
            ≤ days_before_month y (m + 1 + Z.of_nat n)) as Hn.
  { induction n as [|n IH]; intros Hn.
    - rewrite Z.add_0_r, days_before_month_step by lia. lia.
    - replace (m + 1 + Z.of_nat (S n)) with (m + 1 + Z.of_nat n + 1) by lia.
      rewrite days_before_month_step by lia.
      pose proof (days_in_month_pos y (m + 1 + Z.of_nat n)). lia. }
  specialize (Hn (Z.to_nat (m' - (m + 1)))).
  rewrite Z2Nat.id in Hn by lia.
  replace (m + 1 + (m' - (m + 1))) with m' in Hn by lia. apply Hn. lia.
Qed.

Lemma year_length y :
  days_before_month y 13 = 365 + (if leap y then 1 else 0).
Proof.
  unfold days_before_month, days_in_month. by destruct (leap y).
Qed.

Lemma days_before_year_step y :
  days_before_year (y + 1)
  = days_before_year y + 365 + (if leap y then 1 else 0).
Proof.
  unfold days_before_year, leap. case_bool_decide as Hleap.
  - Z.div_mod_to_equations. lia.
  - Z.div_mod_to_equations. lia.
Qed.

Lemma days_before_year_mono y y' :
  y ≤ y' → days_before_year y ≤ days_before_year y'.
Proof.
  intros Hle.
  assert (∀ n : nat, days_before_year y ≤ days_before_year (y + Z.of_nat n))
    as Hn.
  { induction n as [|n IH]; [by rewrite Z.add_0_r|].
    replace (y + Z.of_nat (S n)) with (y + Z.of_nat n + 1) by lia.
    rewrite days_before_year_step. destruct (leap (y + Z.of_nat n)); lia. }
  specialize (Hn (Z.to_nat (y' - y))).
  rewrite Z2Nat.id in Hn by lia. by replace (y + (y' - y)) with y' in Hn by lia.
Qed.

Lemma days_before_month_nonneg y m : 1 ≤ m ≤ 12 → 0 ≤ days_before_month y m.
Proof.
  intros Hm. destruct (decide (m = 1)) as [-> | Hone]; [done|].
  pose proof (days_before_month_mono y 1 m).
  pose proof (days_in_month_pos y 1).
  change (days_before_month y 1) with 0 in *. lia.
Qed.

Lemma days_lt a b :
  valid a → valid b →
  year a < year b
  ∨ year a = year b
    ∧ (month a < month b ∨ month a = month b ∧ day a < day b) →
  days a < days b.
Proof.
  intros (Hma & Hda & _) (Hmb & Hdb & _) Hlt. unfold days.
  destruct Hlt as [Hy | [Hy [Hm | [Hm Hd]]]].
  - pose proof (days_before_year_mono (year a + 1) (year b)) as Hyears.
    rewrite days_before_year_step in Hyears.
    pose proof (days_before_month_mono (year a) (month a) 13) as Hmonths.
    rewrite year_length in Hmonths.
    pose proof (days_before_month_nonneg (year b) (month b)). lia.
  - rewrite Hy in *.
    pose proof (days_before_month_mono (year b) (month a) (month b)). lia.
  - rewrite Hy, Hm. lia.
Qed.

Lemma seconds_mono a b :
  valid a → valid b → fields_le a b → seconds a ≤ seconds b.
Proof.
  intros Ha Hb Hle.
  pose proof (days_lt a b Ha Hb) as Hdays.
  destruct Ha as (_ & _ & ? & ? & ?), Hb as (_ & _ & ? & ? & ?).
  unfold seconds.
  assert (days a < days b
          ∨ days a = days b
            ∧ (hour a < hour b
               ∨ hour a = hour b
                 ∧ (minute a < minute b
                    ∨ minute a = minute b ∧ second a ≤ second b)))
    as Hcases.
  { unfold fields_le in Hle.
    destruct Hle as [? | [? [? | [? [? | [? ?]]]]]];
      [left; apply Hdays; lia..|right].
    split; [|done]. unfold days. congruence. }
  lia.
Qed.

Lemma ascii_compare_same c : Ascii.compare c c = Eq.
Proof. unfold Ascii.compare. apply N.compare_refl. Qed.

Lemma two_inv a b v :
  two a b = Some v →
  ∃ x y, digit a = Some x ∧ digit b = Some y ∧ v = 10 * x + y.
Proof.
  unfold two. destruct (digit a) as [x|]; [|done].
  destruct (digit b) as [y|]; [|done]. intros [= <-]. by exists x, y.
Qed.

(** What [civil] accepts: the characters, the value of each digit and the
    fields. *)
Lemma civil_inv s c zone :
  civil s = Some (c, zone) →
  ∃ y1 y2 y3 y4 m1 m2 d1 d2 h1 h2 n1 n2 s1 s2
    vy1 vy2 vy3 vy4 vm1 vm2 vd1 vd2 vh1 vh2 vn1 vn2 vs1 vs2,
    s = string_of_list_ascii
          ([y1; y2; y3; y4; "-"; m1; m2; "-"; d1; d2; "T";
            h1; h2; ":"; n1; n2; ":"; s1; s2]%char ++ zone)
    ∧ Forall2 (λ ch v, digit ch = Some v)
        [y1; y2; y3; y4; m1; m2; d1; d2; h1; h2; n1; n2; s1; s2]
        [vy1; vy2; vy3; vy4; vm1; vm2; vd1; vd2; vh1; vh2; vn1; vn2;
         vs1; vs2]
    ∧ c = {| year := 100 * (10 * vy1 + vy2) + (10 * vy3 + vy4);
             month := 10 * vm1 + vm2; day := 10 * vd1 + vd2;
             hour := 10 * vh1 + vh2; minute := 10 * vn1 + vn2;
             second := 10 * vs1 + vs2 |}
    ∧ valid c.
Proof.
  intros Hs. rewrite <-(string_of_list_ascii_of_string s).
  unfold civil in Hs.
  destruct (list_ascii_of_string s) as [|y1 l]; [discriminate Hs|].
  do 18 (destruct l as [|? l]; [discriminate Hs|]).
  repeat match type of Hs with
         | context [Ascii.eqb ?x ?y] =>
             destruct (Ascii.eqb_spec x y); [subst x|discriminate Hs]
         end.
  cbn [andb] in Hs. unfold four in Hs.
  repeat match type of Hs with
         | context [two ?x ?y] =>
             let E := fresh "E" in
             destruct (two x y) as [?|] eqn:E; [|discriminate Hs];
             apply two_inv in E as (? & ? & ? & ? & ->);
             cbn [mbind option_bind] in Hs
         end.
  case_bool_decide as Hvalid; [|discriminate Hs]. injection Hs as <- <-.
  do 28 eexists. split; [reflexivity|].
  split; [|split; [reflexivity|exact Hvalid]].
  repeat (constructor; [eassumption|]). constructor.
Qed.

(** On timestamps in UTC the order of the strings is the order in time. *)
Lemma utc_le_not_later a b :
  utc a → utc b → String.leb a b = true → not_later a b.
Proof.
  intros [ca Ha] [cb Hb] Hle. unfold not_later, instant.
  rewrite Ha, Hb. cbn. apply Z.sub_le_mono_r.
  apply civil_inv in Ha as (? & ? & ? & ? & ? & ? & ? & ? & ? & ? & ? & ? & ? & ? & ? & ? & ? & ? & ? & ? & ? & ? & ? & ? & ? & ? & ? & ? & -> & Hda & -> & Hva).
  apply civil_inv in Hb as (? & ? & ? & ? & ? & ? & ? & ? & ? & ? & ? & ? & ? & ? & ? & ? & ? & ? & ? & ? & ? & ? & ? & ? & ? & ? & ? & ? & -> & Hdb & -> & Hvb).
  repeat match goal with
         | H : Forall2 _ (_ :: _) _ |- _ => apply Forall2_cons in H as [? H]
         end.
  unfold String.leb in Hle.
  cbn [string_of_list_ascii app String.compare] in Hle.
  rewrite !ascii_compare_same in Hle.
  repeat match type of Hle with
         | context [Ascii.compare ?x ?y] =>
             erewrite (digit_compare x y) in Hle by eassumption
         end.
  repeat match goal with
         | H : digit _ = Some _ |- _ => apply digit_range in H
         end.
  apply seconds_mono; [done..|]. unfold fields_le. cbn.
  repeat match type of Hle with
         | context [?m ?= ?n] =>
             destruct (Z.compare_spec m n); [subst| |discriminate Hle]
         end; lia.
Qed.

End Iso8601Facts.

(** ** The order of a run and the order in time *)

Module TimeFacts.
Import Text TextFacts Feed Effects Script History Plan Observe.
Import PySortFacts TraceFacts StoreFacts AllocFacts LoopFacts MainFacts.
Import Iso8601Facts.

(** Timestamps in UTC that ascend as strings ascend in time. *)
Lemma sorted_not_later l :
  StronglySorted le l → Forall Iso8601.utc l →
  StronglySorted Iso8601.not_later l.
Proof.
  induction 1 as [|d l Hsorted IH Hd]; intros Hutc; [constructor|].
  apply Forall_cons in Hutc as [Hfirst Hutc]. constructor; [by apply IH|].
  rewrite Forall_forall in Hd, Hutc. apply Forall_forall. intros d' Hd'.
  apply utc_le_not_later; [done|by apply Hutc|by apply Hd].
Qed.

Lemma ascending_created_at (l : list Event) :
  PySort.ascending created_at l → StronglySorted le (map created_at l).
Proof.
  unfold PySort.ascending.
  induction 1 as [|e l Hsorted IH He]; [constructor|].
  cbn [map]. constructor; [done|].
  apply Forall_forall. intros d (e' & -> & He')%list_elem_of_fmap.
  rewrite Forall_forall in He. by apply He.
Qed.

(** A date on a timeline was there before, or was stamped since. *)
Lemma run_timestamps_elem_of l s n d :
  d ∈ timestamps (run s l) n →
  (∃ n', d ∈ timestamps s n') ∨ d ∈ commit_dates l.
Proof.
  revert s n. induction l as [|op l IH]; intros s n Hd; [left; by exists n|].
  rewrite run_cons in Hd. unfold commit_dates. rewrite omap_cons.
  fold (commit_dates l).
  apply IH in Hd as [[n' Hd] | Hd];
    [|right; destruct op; [right|..]; done].
  unfold timestamps in Hd.
  destruct op as [message date|name|name|name|names].
  - rewrite recorded_commit in Hd.
    assert (d ∈ map authoredAt (recorded s n') ∨ d = date) as [Hold | ->].
    { case_decide; [|by left]. rewrite map_app, elem_of_app in Hd.
      destruct Hd as [? | ->%list_elem_of_singleton]; [by left|by right]. }
    + left. by exists n'.
    + right. left.
  - destruct (recorded_rename s name n') as [Hnil | [n'' Hmoved]].
    + rewrite Hnil in Hd. by apply elem_of_nil in Hd.
    + rewrite Hmoved in Hd. left. by exists n''.
  - left. by exists n'.
  - rewrite recorded_create in Hd. left. by exists n'.
  - left. by exists n'.
Qed.

(** The dates stamped by a run are [created_at] values of push events of
    the feed. *)
Lemma main_ops_dates_elem_of events d :
  d ∈ commit_dates (main_ops events) →
  ∃ event, event ∈ events ∧ type event = "PushEvent" ∧ d = created_at event.
Proof.
  unfold main_ops.
  destruct (push_events events) as [|first_event rest] eqn:Hpushes;
    [by intros ?%elem_of_nil|].
  assert (∀ e, e ∈ first_event :: rest → e ∈ events ∧ type e = "PushEvent")
    as Hfrom.
  { intros e He. rewrite <-Hpushes in He. unfold push_events in He.
    rewrite sort_Permutation in He.
    by apply list_elem_of_filter in He as [? ?]. }
  pose proof (sort_ascending created_at
                (filter (λ e, type e = "PushEvent") events)) as Hsorted.
  fold (push_events events) in Hsorted. rewrite Hpushes in Hsorted.
  destruct (loop_dates_ascending (first_event :: rest) empty_alloc Hsorted)
    as [_ Hloop].
  rewrite !commit_dates_app.
  change (commit_dates (init_ops (created_at first_event)))
    with [created_at first_event].
  change (commit_dates [SwitchTo _; MergeTimelines _]) with (@nil string).
  rewrite app_nil_r.
  intros [->%list_elem_of_singleton | Hd]%elem_of_app.
  - exists first_event. destruct (Hfrom first_event); [left|done].
  - rewrite Forall_forall in Hloop. destruct (Hloop d Hd) as (e & He & ->).
    exists e. by destruct (Hfrom e He).
Qed.

Lemma recorded_changes_app l1 l2 :
  recorded_changes (l1 ++ l2) = recorded_changes l1 ++ recorded_changes l2.
Proof. apply omap_app. Qed.

Lemma recorded_changes_event_ops event st :
  recorded_changes (event_ops event st) = changes_of event.
Proof.
  unfold event_ops, checkout_ops, changes_of. rewrite recorded_changes_app.
  assert (recorded_changes
            (if bool_decide (timeline_of event ∉ created_branches st)
             then [SwitchTo "main"; CreateTimeline (timeline_of event)]
             else [SwitchTo (timeline_of event)]) = []) as ->.
  { by case_bool_decide. }
  rewrite app_nil_l.
  induction (sub_changes event) as [|c cs IH]; [done|].
  rewrite !map_cons. unfold recorded_changes in *. by rewrite omap_cons, IH.
Qed.

(** The loop records the changes of the events it keeps, event by event in
    the order of its list. *)
Lemma recorded_changes_loop_ops events st :
  recorded_changes (loop_ops events st) = flat_map changes_of (kept events st).
Proof.
  revert st. induction events as [|event events IH]; intros st; [done|].
  cbn [loop_ops kept]. rewrite recorded_changes_app. unfold advance.
  destruct (dropped event st); [apply IH|].
  cbn [flat_map]. by rewrite recorded_changes_event_ops, IH.
Qed.

Lemma recorded_changes_main_ops events :
  recorded_changes (main_ops events) = planned_changes (push_events events).
Proof.
  unfold main_ops, planned_changes.
  destruct (push_events events) as [|first_event rest]; [done|].
  rewrite !recorded_changes_app, recorded_changes_loop_ops.
  change (recorded_changes (init_ops (created_at first_event)))
    with [root_change (created_at first_event)].
  change (recorded_changes [SwitchTo _; MergeTimelines _]) with (@nil Change).
  by rewrite app_nil_r.
Qed.

End TimeFacts.

(** * The properties of a run *)

Import Text TextFacts Feed Effects Script History Plan Worlds Samples.
Import PySortFacts RunFacts TraceFacts StoreFacts AllocFacts LoopFacts MainFacts.
Import OutcomeFacts.

(** C1: in every run of [main], whatever the feed and whatever fails, at
    most [MAX_REPOS] timelines are created; and an event whose name is not
    among the names seen while [MAX_REPOS] names have been seen is skipped:
    the loop body returns without an exception, with the three sets, the
    world and the trace as they were. *)
Theorem timelines_capped {W} `{World W} :
  (∀ (resp : Response) (w : W),
     length (created (trace (main resp (boot w)).2)) ≤ MAX_REPOS)
  ∧ (∀ (event : Event) (st : Alloc) (p : Proc W),
       last_piece slash (repo_name event) ∉ repos_seen st →
       MAX_REPOS ≤ size (repos_seen st) →
       replay_event event st p = (Ret st, p)).
Proof.
  split.
  - intros resp w.
    destruct (main resp (boot w)) as [r p'] eqn:Hrun.
    apply main_ops_prefix in Hrun as (done & Hops & Hprefix).
    cbn [snd]. rewrite created_creates, Hops. cbn [boot trace app ops omap].
    apply (omap_prefix (λ op, match op with
                              | CreateTimeline name => Some name
                              | _ => None
                              end)) in Hprefix.
    apply prefix_length in Hprefix. fold (creates done) in Hprefix.
    etrans; [exact Hprefix|].
    destruct resp as [events|e]; [|simpl; lia]. unfold main_ops.
    destruct (push_events events) as [|first_event rest]; [simpl; lia|].
    fold (creates (init_ops (created_at first_event)
                   ++ loop_ops (first_event :: rest) empty_alloc
                   ++ [SwitchTo "main";
                       MergeTimelines
                         (PySort.sorted
                            (elements
                               (active_branches
                                  (loop_state (first_event :: rest)
                                     empty_alloc))))])).
    rewrite !creates_app, !length_app.
    change (length (creates (init_ops _))) with 0.
    change (length (creates [SwitchTo _; MergeTimelines _])) with 0.
    pose proof (creates_loop_ops_length (first_event :: rest) empty_alloc)
      as Hcount.
    pose proof (loop_state_within_cap (first_event :: rest) empty_alloc
                  within_cap_empty) as Hcap.
    destruct (loop_state_agree (first_event :: rest) empty_alloc agree_empty)
      as [Hseen _].
    unfold within_cap in Hcap. rewrite Hseen in Hcap.
    change (size (created_branches empty_alloc)) with (size (∅ : gset string))
      in Hcount.
    rewrite size_empty in Hcount. lia.
  - intros event st p Hnew Hfull. rewrite replay_event_plan.
    assert (dropped event st = true) as ->; [|done].
    by apply dropped_spec.
Qed.

Lemma timelines_capped_witness :
  @replay_event unit obliging (push "avinasx/sixth" "2024-03-05" ["x"])
    full_alloc (boot tt)
  = (Ret full_alloc, boot tt).
Proof.
  apply (proj2 (@timelines_capped unit obliging)).
  - apply (proj1 (bool_decide_eq_true _)). vm_compute. reflexivity.
  - apply (proj1 (bool_decide_eq_true _)). vm_compute. reflexivity.
Defined.

(** C2: when the loop body completes for an event that is not skipped, the
    number of changes recorded on the event's timeline has grown by
    [max(1, len(commits))]; for an event without commits the one change
    added is the placeholder ["<name>: Update"], dated [created_at]. *)
Theorem replay_event_count {W} `{World W}
    (event : Event) (st st' : Alloc) (p p' : Proc W) (s : Store) :
  (last_piece slash (repo_name event) ∈ repos_seen st
   ∨ size (repos_seen st) < MAX_REPOS) →
  replay_event event st p = (Ret st', p') →
  let name := last_piece slash (repo_name event) in
  let before := recorded (replay s (trace p)) name in
  let after := recorded (replay s (trace p')) name in
  length after = length before + max 1 (length (default [] (commits event)))
  ∧ (default [] (commits event) = [] →
     after = before ++ [{| subject := name +:+ ": Update";
                           authoredAt := created_at event |}]).
Proof.
  intros Hkept%not_dropped_spec Hrun. cbv zeta.
  destruct (replay_event_store event st st' p p' s Hkept Hrun) as [_ ->].
  destruct (run_event_ops event st (replay s (trace p))) as (_ & Hname & _).
  fold (timeline_of event). rewrite Hname. split.
  - by rewrite length_app, length_map, sub_changes_length.
  - intros Hnone. unfold sub_changes. by rewrite Hnone.
Qed.

Lemma replay_event_count_witness :
  let p' := (@replay_event unit obliging bare_push empty_alloc (boot tt)).2 in
  let after := recorded (replay (fresh "master") (trace p')) "notes" in
  length after = 0 + 1
  ∧ (@nil Commit = [] →
     after = [] ++ [{| subject := "notes: Update";
                       authoredAt := "2024-03-02T09:00:00Z" |}]).
Proof.
  apply (@replay_event_count unit obliging bare_push empty_alloc
           (next bare_push empty_alloc) (boot tt)
           (@replay_event unit obliging bare_push empty_alloc (boot tt)).2
           (fresh "master")).
  - right. vm_compute. lia.
  - vm_compute. reflexivity.
Defined.




(** C4: when [main] returns, the store holds, for every push event that
    was not skipped, one change per commit of the event on the event's
    timeline, with subject ["<name>: <first line of the message>"], the
    first line being what [firstLineOf] gives, and dated [created_at], next
    to each other and in the order of the commits (for an event without
    commits: the placeholder). *)
Theorem sub_changes_recorded {W} `{World W}
    (events : list Event) (w : W) (p' : Proc W) (initial_branch : string)
    (event : Event) :
  main (Fetched events) (boot w) = (Ret tt, p') →
  event ∈ kept (push_events events) empty_alloc →
  let name := last_piece slash (repo_name event) in
  let final := replay (fresh initial_branch) (trace p') in
  ∃ before after,
    recorded final name
    = before
      ++ map (λ commit,
                {| subject := name +:+ ": "
                              +:+ Terms.firstLineOf (message commit);
                   authoredAt := created_at event |})
             (sub_changes event)
      ++ after.
Proof.
  intros Hrun Hkept. cbv zeta. fold (timeline_of event).
  rewrite (map_ext _ (change_of (timeline_of event) (created_at event)))
    by (intros commit; unfold change_of, subject_of;
        by rewrite TermsFacts.first_piece_firstLineOf).
  apply main_ops_returned in Hrun
    as (first_event & rest & tail & Hpushes & Hops & Htail).
  rewrite Hpushes in Hkept.
  rewrite replay_run, Hops.
  change (ops (trace (boot w))) with (@nil GitOp). rewrite app_nil_l.
  rewrite !run_app, run_tail_recorded by done.
  rewrite run_loop_ops_recorded.
  destruct (loop_changes_block _ _ _ Hkept) as (before & after & ->).
  eexists (_ ++ before), after. by rewrite <-app_assoc.
Qed.

Lemma sub_changes_recorded_witness :
  let p' :=
    (@main unit obliging (Fetched [described_push; watch]) (boot tt)).2 in
  ∃ before after,
    recorded (replay (fresh "master") (trace p')) "app"
    = before
      ++ [{| subject := "app: Fix bug";
             authoredAt := "2024-04-01T10:00:00Z" |};
          {| subject := "app: Tidy up";
             authoredAt := "2024-04-01T10:00:00Z" |}]
      ++ after.
Proof.
  apply (@sub_changes_recorded unit obliging [described_push; watch] tt
           (@main unit obliging (Fetched [described_push; watch]) (boot tt)).2
           "master" described_push).
  - vm_compute. reflexivity.
  - vm_compute. left.
Defined.

(** C5: a feed that was fetched but holds no push event makes [main] stop
    with [sys.exit(1)] after two lines of output: a non-zero exit status,
    the world as it was, and no operation on the file system or the history
    store attempted. *)
Theorem empty_feed_fails {W} `{World W} (events : list Event) (p : Proc W) :
  filter (λ e, type e = "PushEvent") events = [] →
  let out := main (Fetched events) p in
  out.1 = Raise (SystemExit 1)
  ∧ exit_status out.1 = 1
  ∧ world out.2 = world p
  ∧ trace out.2 = trace p ++ [Printed fetching_line;
                              Printed "No recent push events found."].
Proof.
  intros Hnone. cbv zeta.
  rewrite main_no_push by (unfold push_events; by rewrite Hnone).
  done.
Qed.

Lemma empty_feed_fails_witness :
  let out := @main unit obliging (Fetched [watch]) (boot tt) in
  out.1 = Raise (SystemExit 1)
  ∧ exit_status out.1 = 1
  ∧ world out.2 = tt
  ∧ trace out.2 = [Printed fetching_line;
                   Printed "No recent push events found."].
Proof.
  apply (@empty_feed_fails unit obliging [watch] (boot tt)). reflexivity.
Defined.

(** C6 as the specification states it fails: in a world where exactly the
    merge fails, the run over a feed of one push exits with status 0. *)
Lemma merge_failure_exits_zero :
  let out := @main unit merge_fails (Fetched [own_site]) (boot tt) in
  failures (trace out.2)
  = [CheckCall (git ["git"; "merge"; "--no-edit"; "site"] [])]
  ∧ exit_status out.1 = 0.
Proof. vm_compute. done. Qed.

(** C6, as the script has it: [main] exits with status 0 exactly when the
    feed was fetched, holds a push event, and no operation other than the
    final [git merge] failed.  A failed fetch, a feed without push events,
    and a failure of any other operation (removing or making the
    directory, [git init], [git config], a checkout, a commit) give a
    non-zero status; a failed merge does not. *)
Theorem exit_status_zero_iff {W} `{World W} (resp : Response) (w : W) :
  let out := main resp (boot w) in
  exit_status out.1 = 0 ↔
    (∃ events, resp = Fetched events
               ∧ filter (λ e, type e = "PushEvent") events ≠ [])
    ∧ Forall is_merge (failures (trace out.2)).
Proof.
  cbv zeta. destruct resp as [events|e].
  - destruct (push_events events) as [|first_event rest] eqn:Hpushes.
    + rewrite main_no_push by done. cbn [fst exit_status].
      split; [done|]. intros [(events' & [= <-] & Hsome) _].
      destruct Hsome. apply Permutation_nil_r.
      rewrite <-Hpushes. unfold push_events. by rewrite sort_Permutation.
    + destruct (main (Fetched events) (boot w)) as [r p'] eqn:Hrun.
      apply main_outcome in Hrun as (failed & Hfailed & Hcases);
        [|by rewrite Hpushes].
      cbn [fst snd]. rewrite Hfailed. cbn [boot trace failures omap app].
      destruct Hcases as [[-> Hmerge] | (e & op & -> & Hop & Hnot)].
      * split; [|done]. intros _. split; [|done].
        exists events. split; [done|]. intros Hnone.
        unfold push_events in Hpushes. by rewrite Hnone in Hpushes.
      * split; [done|]. intros [_ Hall].
        rewrite Forall_forall in Hall. destruct Hnot. by apply Hall.
  - rewrite main_fetch_failed. cbn [fst exit_status].
    split; [done|]. by intros [(events & [=] & _) _].
Qed.

(** C7 as the specification states it fails: [own_site] and [forked_site]
    are pushes to repositories with different names, and within the cap,
    yet the run creates one timeline, "site", and records the changes of
    both on it. *)
Lemma distinct_projects_share_timeline :
  let out := @main unit obliging (Fetched [own_site; forked_site]) (boot tt) in
  repo_name own_site ≠ repo_name forked_site
  ∧ out.1 = Ret tt
  ∧ created (trace out.2) = ["site"]
  ∧ map subject (recorded (replay (fresh "master") (trace out.2)) "site")
    = ["site: Add index"; "site: Fix typo"].
Proof. cbv zeta. split; [discriminate|]. vm_compute. done. Qed.

(** C7, as the script has it: timelines go by the last piece of the
    repository name.  When [main] returns, the timeline of any name holds
    the changes of the push events, not skipped, whose repository name ends
    in that piece, in the order of the events, and no others (on "main",
    after the root change).  So two events are on different timelines when
    the last pieces of their repository names differ, and on the same
    timeline when these are equal, whatever comes before them. *)
Theorem timeline_by_last_segment {W} `{World W}
    (events : list Event) (w : W) (p' : Proc W)
    (initial_branch name : string) :
  main (Fetched events) (boot w) = (Ret tt, p') →
  ∃ first_event,
    push_events events !! 0 = Some first_event
    ∧ recorded (replay (fresh initial_branch) (trace p')) name
      = (if decide (name = "main")
         then [root_change (created_at first_event)] else [])
        ++ flat_map
             (λ event,
                map (λ commit,
                       {| subject := name +:+ ": "
                            +:+ first_piece newline (message commit);
                          authoredAt := created_at event |})
                    (sub_changes event))
             (filter (λ event, last_piece slash (repo_name event) = name)
                     (kept (push_events events) empty_alloc)).
Proof.
  intros Hrun.
  apply main_ops_returned in Hrun
    as (first_event & rest & tail & Hpushes & Hops & Htail).
  exists first_event. rewrite Hpushes. split; [done|].
  rewrite replay_run, Hops.
  change (ops (trace (boot w))) with (@nil GitOp). rewrite app_nil_l.
  rewrite !run_app, run_tail_recorded by done.
  rewrite run_loop_ops_recorded, run_init_ops_recorded. f_equal.
  unfold loop_changes.
  induction (kept (first_event :: rest) empty_alloc) as [|e l IH]; [done|].
  rewrite !filter_cons. fold (timeline_of e). case_decide as He; [|done].
  cbn [flat_map]. rewrite IH. f_equal. unfold changes_of, change_of, subject_of.
  by rewrite He.
Qed.

Lemma timeline_by_last_segment_witness :
  let p' :=
    (@main unit obliging (Fetched [own_site; forked_site]) (boot tt)).2 in
  ∃ first_event,
    Some own_site = Some first_event
    ∧ recorded (replay (fresh "master") (trace p')) "site"
      = [] ++ [{| subject := "site: Add index";
                  authoredAt := "2024-03-03T08:00:00Z" |};
               {| subject := "site: Fix typo";
                  authoredAt := "2024-03-04T08:00:00Z" |}].
Proof.
  apply (@timeline_by_last_segment unit obliging [own_site; forked_site] tt
           (@main unit obliging (Fetched [own_site; forked_site]) (boot tt)).2
           "master" "site").
  vm_compute. reflexivity.
Defined.




(** C9: the final merge first runs [git checkout main] and then, when that
    came back without error and [active_branches] is not empty, exactly one
    [git merge --no-edit] naming the members of [active_branches], each
    once, in ascending string order; with [active_branches] empty no merge
    is run at all.  Nothing else is run. *)
Theorem merge_branches_commands {W} `{World W}
    (active : gset string) (p : Proc W) :
  let out := merge_branches active p in
  let switched :=
    succeeded (perform (CheckCall checkout_main) (world p)).2 in
  ∃ names,
    StronglySorted Text.le names ∧ NoDup names
    ∧ (∀ n, n ∈ names ↔ n ∈ active)
    ∧ attempted (trace out.2)
      = attempted (trace p)
        ++ ["git"; "checkout"; "main"]
        :: (if switched && bool_decide (active ≠ ∅)
            then [["git"; "merge"; "--no-edit"] ++ names] else []).
Proof.
  cbv zeta. exists (PySort.sorted (elements active)). split_and!.
  - apply sorted_ascending.
  - apply sorted_NoDup, NoDup_elements.
  - intros n. by rewrite sorted_elem_of, elem_of_elements.
  - destruct (merge_branches active p) as [r p'] eqn:Hrun.
    apply merge_branches_inv in Hrun as (w1 & o1 & -> & Hcases).
    cbn [fst snd]. destruct o1 as [|e]; cbn [succeeded andb].
    + destruct Hcases as [_ Hcases]. case_bool_decide.
      * destruct Hcases as (o2 & _ & ->). rewrite attempted_app.
        by destruct o2.
      * by rewrite Hcases, attempted_app.
    + destruct Hcases as [_ ->]. by rewrite attempted_app.
Qed.

(** C10: the loop keeps its three sets equal: a completed pass through
    the loop body takes equal sets to equal sets, and after a completed
    loop, started with the three sets empty, they are equal; every name in
    them had its timeline created during the loop and has at least one
    change recorded on it; and after a loop over at least one event they
    are not empty. *)
Theorem allocator_sets_agree {W} `{World W} :
  (∀ (event : Event) (st st' : Alloc) (p p' : Proc W),
     repos_seen st = created_branches st →
     active_branches st = created_branches st →
     replay_event event st p = (Ret st', p') →
     repos_seen st' = created_branches st'
     ∧ active_branches st' = created_branches st')
  ∧ (∀ (events : list Event) (st' : Alloc) (p p' : Proc W) (s : Store),
       for_fold events replay_event empty_alloc p = (Ret st', p') →
       repos_seen st' = created_branches st'
       ∧ active_branches st' = created_branches st'
       ∧ (∃ entries,
            trace p' = trace p ++ entries
            ∧ ∀ name, name ∈ repos_seen st' →
                name ∈ created entries
                ∧ recorded (replay s (trace p')) name ≠ [])
       ∧ (events ≠ [] → active_branches st' ≠ ∅)).
Proof.
  split.
  - intros event st st' p p' Hseen Hactive. rewrite replay_event_plan.
    destruct (dropped event st).
    + by intros [= <- <-].
    + destruct (run_all _ p) as [[[]|x] p1]; [|done]. intros [= <- <-].
      by apply next_agree.
  - intros events st' p p' s. rewrite for_fold_plan.
    destruct (run_all _ p) as [r1 p1] eqn:Hrun.
    destruct r1 as [[]|x]; [|done]. intros [= <- <-].
    destruct (loop_state_agree events empty_alloc agree_empty)
      as [Hseen Hactive].
    apply run_all_inv in Hrun as [[_ Htrace] | (k & op & e & _ & ? & _)];
      [|done].
    split_and!; [done..| |].
    + eexists. split; [exact Htrace|]. intros name Hname. split.
      * rewrite created_creates, ops_done, omap_parse_op, parse_loop_cmds.
        rewrite Hseen in Hname.
        by apply loop_state_created_elem_of in Hname
          as [?%not_elem_of_empty | ?].
      * rewrite replay_run, Htrace, ops_app, run_app.
        rewrite ops_done, omap_parse_op, parse_loop_cmds.
        rewrite run_loop_ops_recorded.
        apply loop_state_seen_elem_of in Hname
          as [?%not_elem_of_empty | (event & Hkept & <-)]; [done|].
        destruct (loop_changes_block _ _ _ Hkept) as (before & after & ->).
        unfold changes_of.
        pose proof (sub_changes_nonempty event) as Hsome.
        destruct (sub_changes event); [done|].
        intros Hnil. apply (f_equal length) in Hnil.
        rewrite !length_app in Hnil. simpl in Hnil. lia.
    + destruct events as [|event events]; [done|]. intros _.
      apply loop_state_nonempty.
Qed.

Lemma allocator_sets_agree_witness :
  let out := for_fold [own_site; forked_site] (@replay_event unit obliging)
               empty_alloc (boot tt) in
  let st' := next forked_site (next own_site empty_alloc) in
  repos_seen st' = created_branches st'
  ∧ active_branches st' = created_branches st'
  ∧ (∃ entries,
       trace out.2 = [] ++ entries
       ∧ ∀ name, name ∈ repos_seen st' →
           name ∈ created entries
           ∧ recorded (replay (fresh "master") (trace out.2)) name ≠ [])
  ∧ ([own_site; forked_site] ≠ [] → active_branches st' ≠ ∅).
Proof.
  apply (proj2 (@allocator_sets_agree unit obliging)
           [own_site; forked_site] _ (boot tt)).
  vm_compute. reflexivity.
Defined.

(** * Sample runs *)

(** Three pushes to one repository, two commits each: one timeline, six
    changes on it, and a merge of that timeline into "main". *)
Example one_project_run :
  let out := @main unit obliging (Fetched one_project) (boot tt) in
  let final := replay (fresh "master") (trace out.2) in
  exit_status out.1 = 0
  ∧ created (trace out.2) = ["app"]
  ∧ map subject (recorded final "app")
    = ["app: a1"; "app: a2"; "app: b1"; "app: b2"; "app: c1"; "app: c2"]
  ∧ merges final = [("main", ["app"])]
  ∧ failures (trace out.2) = [].
Proof. vm_compute. done. Qed.

(** Pushes to six repositories with [MAX_REPOS = 5]: five timelines, and
    nothing recorded for the sixth repository, without a failure; a later
    push to one of the five is still replayed. *)
Example six_projects_run :
  let out := @main unit obliging (Fetched six_projects) (boot tt) in
  let final := replay (fresh "master") (trace out.2) in
  exit_status out.1 = 0
  ∧ created (trace out.2) = ["p1"; "p2"; "p3"; "p4"; "p5"]
  ∧ recorded final "p6" = []
  ∧ map subject (recorded final "p1") = ["p1: one"; "p1: seven"]
  ∧ merges final = [("main", ["p1"; "p2"; "p3"; "p4"; "p5"])]
  ∧ failures (trace out.2) = [].
Proof. vm_compute. done. Qed.

(** A push without commits: one placeholder change, dated as the event. *)
Example bare_push_run :
  let out := @main unit obliging (Fetched [bare_push]) (boot tt) in
  recorded (replay (fresh "master") (trace out.2)) "notes"
  = [{| subject := "notes: Update"; authoredAt := "2024-03-02T09:00:00Z" |}].
Proof. vm_compute. done. Qed.

(** Only the first line of a commit message is used. *)
Example first_line_only :
  let out :=
    @main unit obliging
      (Fetched [push "avinasx/app" "2024-04-01T10:00:00Z"
                  ["Fix bug" +:+ String newline "Long description"]])
      (boot tt) in
  map subject (recorded (replay (fresh "master") (trace out.2)) "app")
  = ["app: Fix bug"].
Proof. vm_compute. done. Qed.

(** [str.split] on some repository names and messages. *)
Example split_samples :
  split slash "avinasx/avinasx" = ["avinasx"; "avinasx"]
  ∧ split slash "site" = ["site"]
  ∧ split slash "a/b/" = ["a"; "b"; ""]
  ∧ split slash "" = [""]
  ∧ last_piece slash "org/team/repo" = "repo"
  ∧ first_piece newline ("Title" +:+ String newline "" +:+ String newline "Body")
    = "Title".
Proof. vm_compute. done. Qed.

(** The sort keeps events of one [created_at] value in feed order. *)
Example sort_ties :
  map repo_name
    (PySort.sort created_at
       [push "u/late" "2024-01-02" []; push "u/first" "2024-01-01" [];
        push "u/second" "2024-01-01" []; push "u/third" "2024-01-01" []])
  = ["u/first"; "u/second"; "u/third"; "u/late"].
Proof. vm_compute. done. Qed.

(** * Further properties of a run *)

(** ** The trace of a run, case by case *)

Module ShapeFacts.
Import Text TextFacts Feed Effects Script History Plan Observe.
Import PySortFacts RunFacts TraceFacts StoreFacts AllocFacts LoopFacts MainFacts.
Import OutcomeFacts.

Lemma printed_trace {W} lines (p : Proc W) :
  trace (printed lines p) = trace p ++ map Printed lines.
Proof. done. Qed.

(** The three ways a run over a feed with a push event ends: an operation
    before the merge fails; the checkout of "main" fails; or the run gets to
    its last line, with the merge done or failed. *)
Lemma main_trace_inv {W} `{World W} (events : list Event) (p : Proc W) r p' :
  push_events events ≠ [] →
  main (Fetched events) p = (r, p') →
  let pushes := push_events events in
  let plan := build_ops (path_exists OUTPUT_REPO_DIR (world p)) pushes in
  let start := trace p ++ [Printed fetching_line;
                           Printed (found_line (length pushes))] in
  let merge :=
    CheckCall (merge_cmd (active_branches (loop_state pushes empty_alloc))) in
  (∃ k op e,
      plan !! k = Some op ∧ r = Raise (Error e) ∧
      trace p' = start ++ map (λ op, Did op Done) (take k plan)
                       ++ [Did op (Failed e)])
  ∨ (∃ e,
      r = Raise (Error e) ∧
      trace p' = start ++ map (λ op, Did op Done) plan
                       ++ [Printed merging_line;
                           Did (CheckCall checkout_main) (Failed e)])
  ∨ (∃ o,
      r = Ret tt ∧
      trace p' = start ++ map (λ op, Did op Done) plan
                       ++ [Printed merging_line;
                           Did (CheckCall checkout_main) Done; Did merge o]
                       ++ match o with
                          | Done => []
                          | Failed e => [Printed (merge_failed_line e)]
                          end
                       ++ [Printed done_line]).
Proof.
  intros Hsome. rewrite main_plan by done. cbv zeta.
  destruct (run_all _ _) as [r1 p1] eqn:Hbuild.
  apply run_all_inv in Hbuild
    as [[-> Ht1] | (k & op & e & Hk & -> & Ht1)].
  - unfold bind.
    destruct (merge_branches _ p1) as [r2 p2] eqn:Hmerge.
    apply merge_branches_inv in Hmerge as (w1 & o1 & _ & Hcases).
    destruct (push_events events) as [|first_event rest] eqn:Hpushes; [done|].
    rewrite bool_decide_eq_true_2 in Hcases by apply loop_state_nonempty.
    destruct o1 as [|e].
    + destruct Hcases as [-> (o & _ & Ht2)]. intros [= <- <-].
      right. right. exists o. split; [done|]. cbn [trace].
      rewrite Ht2, Ht1, printed_trace. by rewrite <-!app_assoc.
    + destruct Hcases as [-> Ht2]. intros [= <- <-].
      right. left. exists e. split; [done|].
      rewrite Ht2, Ht1, printed_trace. by rewrite <-!app_assoc.
  - intros [= <- <-]. left. exists k, op, e. split_and!; [done..|].
    rewrite Ht1, printed_trace. by rewrite <-!app_assoc.
Qed.

(** Observers on the pieces of a trace. *)
Lemma operations_app t1 t2 :
  operations (t1 ++ t2) = operations t1 ++ operations t2.
Proof. apply omap_app. Qed.

Lemma operations_done l : operations (map (λ op, Did op Done) l) = l.
Proof.
  induction l as [|op l IH]; [done|].
  rewrite map_cons. unfold operations in *. by rewrite omap_cons, IH.
Qed.

Lemma created_app t1 t2 : created (t1 ++ t2) = created t1 ++ created t2.
Proof. apply omap_app. Qed.

Lemma attempted_operations t :
  attempted t = omap (λ op, match op with
                            | CheckCall c => Some (args c)
                            | _ => None
                            end) (operations t).
Proof.
  induction t as [|e t IH]; [done|].
  unfold attempted, operations in *. rewrite !omap_cons, IH.
  by destruct e as [line|[] o].
Qed.

End ShapeFacts.

(** ** The feed as [main] reads it *)

Module FeedFacts.
Import Text TextFacts Feed Effects Script History Plan Observe.
Import PySortFacts RunFacts TraceFacts StoreFacts AllocFacts LoopFacts MainFacts.

(** Sorting a list that is ascending already leaves it as it is. *)
Lemma sort_ascending_id {A} (key : A → string) l :
  PySort.ascending key l → PySort.sort key l = l.
Proof.
  unfold PySort.ascending. induction l as [|x l IH]; [done|].
  intros [Hx Hl]%StronglySorted_cons. simpl. rewrite IH by done.
  destruct Hx as [|y l' Hxy _]; [done|]. simpl.
  unfold le in Hxy. by rewrite Hxy.
Qed.

Lemma filter_all {A} (P : A → Prop) `{∀ x, Decision (P x)} l :
  Forall P l → filter P l = l.
Proof.
  induction 1 as [|x l Hx _ IH]; [done|].
  by rewrite filter_cons, decide_True, IH.
Qed.

Lemma push_events_type events :
  Forall (λ e, type e = "PushEvent") (push_events events).
Proof.
  unfold push_events. rewrite sort_Permutation.
  apply Forall_forall. by intros e [? _]%list_elem_of_filter.
Qed.

Lemma push_events_elem_of events e :
  e ∈ push_events events ↔ e ∈ events ∧ type e = "PushEvent".
Proof.
  unfold push_events. rewrite sort_Permutation, list_elem_of_filter.
  split; intros [? ?]; done.
Qed.

(** Filtering and sorting a second time changes nothing. *)
Lemma push_events_filter events :
  push_events (filter (λ e, type e = "PushEvent") events) = push_events events.
Proof.
  unfold push_events. f_equal. apply filter_all.
  apply Forall_forall. by intros e [? _]%list_elem_of_filter.
Qed.

Lemma push_events_idemp events :
  push_events (push_events events) = push_events events.
Proof.
  unfold push_events at 1.
  rewrite filter_all by apply push_events_type.
  apply sort_ascending_id. unfold push_events. apply sort_ascending.
Qed.

(** [main] reads the feed through its sorted push events only. *)
Lemma main_ext {W} `{World W} (events1 events2 : list Event) (p : Proc W) :
  push_events events1 = push_events events2 →
  main (Fetched events1) p = main (Fetched events2) p.
Proof.
  intros Heq.
  destruct (push_events events1) as [|first_event rest] eqn:Hpushes.
  - by rewrite !main_no_push.
  - rewrite !main_plan by (by rewrite <-?Heq, ?Hpushes).
    cbv zeta. by rewrite <-Heq, Hpushes.
Qed.

End FeedFacts.

(** ** The properties *)

Import Observe ShapeFacts FeedFacts.

(** X1: a failed fetch makes [main] stop with [sys.exit(1)] after two
    lines of output, the second with the text of the exception; the world
    is as it was and nothing was attempted on it. *)
Theorem fetch_failure_exits {W} `{World W} (e : string) (p : Proc W) :
  let out := main (FetchFailed e) p in
  out.1 = Raise (SystemExit 1)
  ∧ exit_status out.1 = 1
  ∧ world out.2 = world p
  ∧ trace out.2 = trace p ++ [Printed fetching_line;
                              Printed (fetch_error_line e)].
Proof. cbv zeta. by rewrite main_fetch_failed. Qed.

(** X2: events that are not pushes, and the order of the feed beyond what
    the stable sort keeps, do not matter: a run on the feed is the run on
    its push events alone, and the run on its push events sorted. *)
Theorem main_reads_sorted_pushes {W} `{World W}
    (events : list Event) (p : Proc W) :
  let pushes := filter (λ e, type e = "PushEvent") events in
  main (Fetched events) p = main (Fetched pushes) p
  ∧ main (Fetched events) p
    = main (Fetched (PySort.sort created_at pushes)) p.
Proof.
  cbv zeta. split; apply main_ext; symmetry.
  - apply push_events_filter.
  - apply push_events_idemp.
Qed.

(** X3: when [main] returns, the first change on "main" is the root change
    "Init History", and it is dated as the earliest push event of the feed:
    a push event whose [created_at] is at most that of every push event. *)
Theorem root_change_earliest {W} `{World W}
    (events : list Event) (w : W) (p' : Proc W) (initial_branch : string) :
  main (Fetched events) (boot w) = (Ret tt, p') →
  ∃ first_event later,
    recorded (replay (fresh initial_branch) (trace p')) "main"
    = {| subject := "Init History"; authoredAt := created_at first_event |}
      :: later
    ∧ first_event ∈ events ∧ type first_event = "PushEvent"
    ∧ ∀ e, e ∈ events → type e = "PushEvent" →
           Text.le (created_at first_event) (created_at e).
Proof.
  intros Hrun.
  apply main_ops_returned in Hrun
    as (first_event & rest & tail & Hpushes & Hops & Htail).
  exists first_event. eexists. split_and!.
  - rewrite replay_run, Hops.
    change (ops (trace (boot w))) with (@nil GitOp). rewrite app_nil_l.
    rewrite !run_app, OutcomeFacts.run_tail_recorded by done.
    rewrite run_loop_ops_recorded, OutcomeFacts.run_init_ops_recorded.
    rewrite decide_True by done. done.
  - apply (push_events_elem_of events first_event). rewrite Hpushes. left.
  - apply (push_events_elem_of events first_event). rewrite Hpushes. left.
  - intros e He Hpush.
    assert (e ∈ push_events events) as Hin by by apply push_events_elem_of.
    pose proof (sort_ascending created_at
                  (filter (λ e, type e = "PushEvent") events)) as Hsorted.
    fold (push_events events) in Hsorted. rewrite Hpushes in Hsorted, Hin.
    apply StronglySorted_cons in Hsorted as [Hfirst _].
    apply elem_of_cons in Hin as [-> | Hin]; [apply le_refl|].
    rewrite Forall_forall in Hfirst. by apply Hfirst.
Qed.

Lemma root_change_earliest_witness :
  let p' :=
    (@main unit obliging (Fetched [forked_site; watch; own_site]) (boot tt)).2
  in
  ∃ first_event later,
    recorded (replay (fresh "master") (trace p')) "main"
    = {| subject := "Init History"; authoredAt := created_at first_event |}
      :: later
    ∧ first_event ∈ [forked_site; watch; own_site]
    ∧ type first_event = "PushEvent"
    ∧ ∀ e, e ∈ [forked_site; watch; own_site] → type e = "PushEvent" →
           Text.le (created_at first_event) (created_at e).
Proof.
  apply (@root_change_earliest unit obliging [forked_site; watch; own_site] tt
           (@main unit obliging (Fetched [forked_site; watch; own_site])
              (boot tt)).2 "master").
  vm_compute. reflexivity.
Defined.

(** The operations of a run over a feed with a push event: those before
    it, then a beginning, not empty, of the planned ones; all of them when
    the run returns. *)
Lemma main_operations {W} `{World W} (events : list Event) (p : Proc W) r p' :
  push_events events ≠ [] →
  main (Fetched events) p = (r, p') →
  let pushes := push_events events in
  let planned :=
    build_ops (path_exists OUTPUT_REPO_DIR (world p)) pushes
    ++ [CheckCall checkout_main;
        CheckCall
          (merge_cmd (active_branches (loop_state pushes empty_alloc)))] in
  ∃ k,
    operations (trace p') = operations (trace p) ++ take (S k) planned
    ∧ (r = Ret tt → take (S k) planned = planned).
Proof.
  intros Hsome Hrun. cbv zeta.
  destruct (main_trace_inv events p r p' Hsome Hrun)
    as [(k & op & e & Hk & -> & ->) | [(e & -> & ->) | (o & -> & ->)]];
    set (plan := build_ops _ _) in *.
  - exists k. split; [|done].
    rewrite !operations_app, operations_done. cbn [operations omap app].
    rewrite app_nil_r. f_equal.
    rewrite take_app_le by (apply lookup_lt_Some in Hk; lia).
    by rewrite (take_S_r _ _ op).
  - exists (length plan). split; [|done].
    rewrite !operations_app, operations_done. cbn [operations omap app].
    rewrite app_nil_r. f_equal.
    rewrite take_app_ge by lia.
    by replace (S (length plan) - length plan) with 1 by lia.
  - exists (S (length plan)). split.
    + rewrite take_ge by (rewrite length_app; simpl; lia).
      rewrite !operations_app, operations_done.
      change (operations [Printed _; Printed _]) with (@nil Op).
      rewrite app_nil_r. by destruct o.
    + intros _. apply take_ge. rewrite length_app; simpl; lia.
Qed.

Lemma main_operations_none {W} `{World W} resp (p : Proc W) :
  (∀ events, resp = Fetched events → push_events events = []) →
  operations (trace (main resp p).2) = operations (trace p).
Proof.
  intros Hnone. destruct resp as [events|e].
  - rewrite main_no_push by by apply Hnone.
    cbn [snd]. rewrite printed_trace, operations_app.
    cbn [operations omap map]. by rewrite app_nil_r.
  - rewrite main_fetch_failed.
    cbn [snd]. rewrite printed_trace, operations_app.
    cbn [operations omap map]. by rewrite app_nil_r.
Qed.

(** X4: a run stops at the first operation that fails, the merge apart: in
    any run at most one operation fails, and it is the last operation the
    run attempts. *)
Theorem fails_once_and_last {W} `{World W} (resp : Response) (w : W) :
  let t := trace (main resp (boot w)).2 in
  failures t = []
  ∨ ∃ op, failures t = [op] ∧ last (operations t) = Some op.
Proof.
  cbv zeta. destruct resp as [events|e].
  - destruct (push_events events) as [|first_event rest] eqn:Hpushes.
    + left. by rewrite main_no_push.
    + destruct (main (Fetched events) (boot w)) as [r p'] eqn:Hrun.
      cbn [snd].
      apply main_trace_inv in Hrun
        as [(k & op & e & Hk & -> & ->) | [(e & -> & ->) | (o & -> & ->)]];
        [| | |by rewrite Hpushes]; cbn [boot trace]; rewrite app_nil_l;
        set (plan := build_ops _ _).
      * right. exists op.
        rewrite !failures_app, failures_done. split; [done|].
        rewrite !app_assoc, operations_app.
        change (operations [Did op (Failed e)]) with [op].
        by rewrite last_snoc.
      * right. exists (CheckCall checkout_main).
        rewrite !failures_app, failures_done. split; [done|].
        rewrite !operations_app.
        change (operations [Printed _; Did ?op _]) with [op].
        by rewrite !app_assoc, last_snoc.
      * destruct o as [|e]; [left|right; eexists].
        -- by rewrite !failures_app, failures_done.
        -- rewrite !failures_app, failures_done. split; [done|].
           rewrite !operations_app.
           change (operations [Printed _; Did ?op1 _; Did ?op2 _])
             with ([op1] ++ [op2]).
           change (operations [Printed _]) with (@nil Op).
           by rewrite !app_nil_r, !app_assoc, last_snoc.
  - left. by rewrite main_fetch_failed.
Qed.

(** A property of every planned operation holds of every operation
    attempted. *)
Lemma main_operations_Forall {W} `{World W} (P : Op → Prop) :
  (∀ present events active,
     Forall P (build_ops present events
               ++ [CheckCall checkout_main; CheckCall (merge_cmd active)])) →
  ∀ (resp : Response) (w : W),
    Forall P (operations (trace (main resp (boot w)).2)).
Proof.
  intros Hplanned resp w.
  destruct resp as [events|e].
  - destruct (push_events events) as [|first_event rest] eqn:Hpushes.
    + rewrite main_operations_none; [constructor|]. by intros ? [= <-].
    + destruct (main (Fetched events) (boot w)) as [r p'] eqn:Hrun.
      cbn [snd].
      apply main_operations in Hrun as (k & -> & _); [|by rewrite Hpushes].
      apply Forall_take, Hplanned.
  - rewrite main_operations_none; [constructor|]. by intros ? [=].
Qed.

Lemma Forall_loop_cmds (P : Cmd → Prop) events st :
  (∀ name, P (git ["git"; "checkout"; name] [])) →
  (∀ name, P (git ["git"; "checkout"; "-b"; name] [])) →
  (∀ name timestamp commit, P (commit_cmd name timestamp commit)) →
  Forall P (loop_cmds events st).
Proof.
  intros Hswitch Hcreate Hcommit.
  revert st. induction events as [|event events IH]; intros st; [constructor|].
  cbn [loop_cmds]. apply Forall_app. split; [|apply IH].
  destruct (dropped event st); [constructor|].
  unfold event_cmds, checkout_cmds. apply Forall_app. split.
  - case_bool_decide; repeat constructor; auto.
  - apply Forall_fmap, Forall_forall. intros commit _. apply Hcommit.
Qed.

Lemma Forall_planned (P : Op → Prop) present events active :
  P (Rmtree OUTPUT_REPO_DIR) → P (Makedirs OUTPUT_REPO_DIR) →
  (∀ first_date, Forall (λ c, P (CheckCall c)) (init_cmds first_date)) →
  (∀ name, P (CheckCall (git ["git"; "checkout"; name] []))) →
  (∀ name, P (CheckCall (git ["git"; "checkout"; "-b"; name] []))) →
  (∀ name timestamp commit, P (CheckCall (commit_cmd name timestamp commit))) →
  P (CheckCall (merge_cmd active)) →
  Forall P (build_ops present events
            ++ [CheckCall checkout_main; CheckCall (merge_cmd active)]).
Proof.
  intros Hrm Hmk Hinit Hswitch Hcreate Hcommit Hmerge.
  apply Forall_app. split; [|repeat constructor; [apply Hswitch|done]].
  unfold build_ops. destruct events as [|first_event rest]; [constructor|].
  apply Forall_app. split; [destruct present; repeat constructor; done|].
  constructor; [done|]. apply Forall_fmap, Forall_app. split; [apply Hinit|].
  by apply (Forall_loop_cmds (λ c, P (CheckCall c))).
Qed.

(** X5: a run never leaves the output directory: every operation it
    attempts removes or makes [OUTPUT_REPO_DIR], or runs [git] with
    [OUTPUT_REPO_DIR] as its working directory. *)
Theorem operations_confined {W} `{World W} (resp : Response) (w : W) :
  Forall confined (operations (trace (main resp (boot w)).2)).
Proof.
  apply main_operations_Forall. intros present events active.
  apply Forall_planned; try done.
  - intros first_date. repeat constructor; by eexists.
  - intros name. split; [done|]. by eexists.
  - intros name. split; [done|]. by eexists.
  - intros name timestamp commit. split; [done|]. by eexists.
  - split; [done|]. by eexists.
Qed.

(** X6: only commits are given environment entries, and a commit is given
    the same date as author date and as committer date; every other [git]
    command runs in the inherited environment as it is. *)
Theorem commands_dated {W} `{World W} (resp : Response) (w : W) :
  Forall (λ op, match op with
                | CheckCall c => dated c
                | _ => True
                end)
         (operations (trace (main resp (boot w)).2)).
Proof.
  apply (main_operations_Forall
           (λ op, match op with CheckCall c => dated c | _ => True end)).
  intros present events active.
  apply Forall_planned; try done.
  - intros first_date. repeat constructor; by eexists.
  - intros name timestamp commit. by eexists.
Qed.

(** X7: the output directory is removed exactly when it exists and the feed
    holds a push event; and the first operation of a run over such a feed
    is that removal when the directory exists, and making the directory
    when it does not. *)
Theorem output_directory_reset {W} `{World W}
    (events : list Event) (w : W) :
  let t := trace (main (Fetched events) (boot w)).2 in
  let present := path_exists OUTPUT_REPO_DIR w in
  let pushes := filter (λ e, type e = "PushEvent") events in
  (Rmtree OUTPUT_REPO_DIR ∈ operations t ↔ present = true ∧ pushes ≠ [])
  ∧ operations t !! 0
    = match pushes with
      | [] => None
      | _ => Some (if present then Rmtree OUTPUT_REPO_DIR
                   else Makedirs OUTPUT_REPO_DIR)
      end.
Proof.
  cbv zeta.
  assert (push_events events = [] ↔
          filter (λ e, type e = "PushEvent") events = []) as Hnil.
  { unfold push_events. split; [|by intros ->].
    intros Hsorted. apply Permutation_nil_r.
    by rewrite <-Hsorted, sort_Permutation. }
  destruct (push_events events) as [|first_event rest] eqn:Hpushes.
  - rewrite (proj1 Hnil eq_refl).
    rewrite main_operations_none by (by intros ? [= <-]).
    split; [|done]. split; [by intros ?%elem_of_nil|by intros [_ ?]].
  - destruct (filter _ events) as [|e pushes] eqn:Hfilter;
      [by pose proof (proj2 Hnil eq_refl)|].
    destruct (main (Fetched events) (boot w)) as [r p'] eqn:Hrun.
    cbn [snd].
    apply main_operations in Hrun as (k & -> & _); [|by rewrite Hpushes].
    rewrite Hpushes. cbn [boot world trace operations omap app].
    unfold build_ops.
    destruct (path_exists OUTPUT_REPO_DIR w).
    + split; [|done]. split; [done|]. intros _. left.
    + split; [|done]. split; [|by intros [? _]].
      intros Hin%subseteq_take.
      cbn [app] in Hin.
      apply elem_of_cons in Hin as [[=] | Hin].
      apply elem_of_app in Hin as [Hin | Hin].
      * by apply list_elem_of_fmap in Hin as (c & [=] & _).
      * set_unfold. by destruct Hin as [[=] | [[=] | []]].
Qed.

(** X8: the exit status of a run is 0 or 1, and it is 0 exactly when the
    last thing the run did was to print its closing line. *)
Theorem closing_line_iff_success {W} `{World W} (resp : Response) (w : W) :
  let out := main resp (boot w) in
  (exit_status out.1 = 0 ∨ exit_status out.1 = 1)
  ∧ (exit_status out.1 = 0 ↔ last (trace out.2) = Some (Printed done_line)).
Proof.
  cbv zeta. destruct resp as [events|e].
  - destruct (push_events events) as [|first_event rest] eqn:Hpushes.
    + rewrite main_no_push by done. cbn [fst snd exit_status].
      split; [by right|]. split; [done|].
      rewrite printed_trace. change (map Printed [?a; ?b]) with ([Printed a] ++ [Printed b]).
      rewrite !app_assoc, last_snoc. by intros [=].
    + destruct (main (Fetched events) (boot w)) as [r p'] eqn:Hrun.
      cbn [fst snd].
      apply main_trace_inv in Hrun
        as [(k & op & e & Hk & -> & ->) | [(e & -> & ->) | (o & -> & ->)]];
        [| | |by rewrite Hpushes]; cbn [exit_status].
      * split; [by right|]. split; [done|].
        rewrite !app_assoc, last_snoc. by intros [=].
      * split; [by right|]. split; [done|].
        change [Printed merging_line; ?x] with ([Printed merging_line] ++ [x]).
        rewrite !app_assoc, last_snoc. by intros [=].
      * split; [by left|]. split; [|done]. intros _.
        by rewrite !app_assoc, last_snoc.
  - rewrite main_fetch_failed. cbn [fst snd exit_status].
    split; [by right|]. split; [done|].
    rewrite printed_trace.
    change (map Printed [?a; ?b]) with ([Printed a] ++ [Printed b]).
    rewrite !app_assoc, last_snoc. by intros [=].
Qed.

(** The timelines the loop creates are new ones, each created once. *)
Lemma creates_loop_ops_NoDup events st :
  NoDup (creates (loop_ops events st))
  ∧ ∀ n, n ∈ creates (loop_ops events st) → n ∉ created_branches st.
Proof.
  revert st. induction events as [|event events IH]; intros st.
  - split; [constructor|]. by intros n ?%elem_of_nil.
  - cbn [loop_ops]. rewrite creates_app. unfold advance.
    destruct (dropped event st); [apply IH|].
    destruct (IH (next event st)) as [IHdup IHnew].
    rewrite creates_event_ops.
    assert (created_branches (next event st)
            = if bool_decide (timeline_of event ∉ created_branches st)
              then created_branches st ∪ {[timeline_of event]}
              else created_branches st) as Hnext by done.
    destruct (bool_decide (timeline_of event ∉ created_branches st))
      eqn:Hname.
    + apply bool_decide_eq_true in Hname. split.
      * cbn [app]. constructor; [|done]. intros Hin%IHnew.
        apply Hin. rewrite Hnext. by apply elem_of_union_r, elem_of_singleton.
      * intros n [->%list_elem_of_singleton | Hin%IHnew]%elem_of_app; [done|].
        intros Hn. apply Hin. rewrite Hnext. by apply elem_of_union_l.
    + rewrite app_nil_l. split; [done|]. intros n Hin%IHnew.
      by rewrite Hnext in Hin.
Qed.

(** X9: no timeline is created twice: in any run the names given to the
    [git checkout -b] commands that succeeded are all different. *)
Theorem created_once {W} `{World W} (resp : Response) (w : W) :
  NoDup (created (trace (main resp (boot w)).2)).
Proof.
  destruct (main resp (boot w)) as [r p'] eqn:Hrun.
  apply main_ops_prefix in Hrun as (done & Hops & [rest Hprefix]).
  cbn [snd]. rewrite created_creates, Hops.
  change (ops (trace (boot w))) with (@nil GitOp). rewrite app_nil_l.
  assert (NoDup (creates (done ++ rest))) as Hall.
  { rewrite <-Hprefix. destruct resp as [events|e]; [|constructor].
    unfold main_ops.
    destruct (push_events events) as [|first_event tail]; [constructor|].
    rewrite !creates_app.
    change (creates (init_ops _)) with (@nil string).
    change (creates [SwitchTo _; MergeTimelines _]) with (@nil string).
    rewrite app_nil_l, app_nil_r. apply creates_loop_ops_NoDup. }
  rewrite creates_app in Hall. by apply NoDup_app in Hall as [? _].
Qed.

(** Lists of commands in which every [git checkout -b] comes right after a
    [git checkout main]. *)
Lemma branches_from_main_nil : branches_from_main [].
Proof. intros [|??] ?? [=]. Qed.

Lemma branches_from_main_cons command commands :
  (∀ name, command ≠ ["git"; "checkout"; "-b"; name]) →
  branches_from_main commands →
  branches_from_main (command :: commands).
Proof.
  intros Hother Hrest [|first front] name back Heq.
  - injection Heq as -> _. by destruct (Hother name).
  - injection Heq as <- Heq. destruct (Hrest _ _ _ Heq) as [front' ->].
    by exists (command :: front').
Qed.

Lemma branches_from_main_create name commands :
  branches_from_main commands →
  branches_from_main
    (["git"; "checkout"; "main"] :: ["git"; "checkout"; "-b"; name]
     :: commands).
Proof.
  intros Hrest [|first [|second front]] name' back Heq.
  - by injection Heq.
  - injection Heq as <- _ _. by exists [].
  - injection Heq as <- <- Heq. destruct (Hrest _ _ _ Heq) as [front' ->].
    by exists (["git"; "checkout"; "main"]
               :: ["git"; "checkout"; "-b"; name] :: front').
Qed.

Lemma branches_from_main_prefix commands1 commands2 :
  commands1 `prefix_of` commands2 →
  branches_from_main commands2 → branches_from_main commands1.
Proof.
  intros [rest ->] Hall front name back ->.
  apply (Hall front name (back ++ rest)). by rewrite <-app_assoc.
Qed.

Lemma branches_from_main_event event st rest :
  branches_from_main rest →
  branches_from_main (map args (event_cmds event st) ++ rest).
Proof.
  intros Hrest. unfold event_cmds. rewrite map_app, <-app_assoc.
  assert (branches_from_main
            (map args (map (commit_cmd (timeline_of event) (created_at event))
                           (sub_changes event)) ++ rest)) as Hcommits.
  { induction (sub_changes event) as [|commit commits IH]; [done|].
    rewrite !map_cons. cbn [app].
    apply branches_from_main_cons; [by intros name [=]|done]. }
  unfold checkout_cmds. case_bool_decide.
  - by apply branches_from_main_create.
  - apply branches_from_main_cons; [by intros name [=]|done].
Qed.

Lemma branches_from_main_loop events st rest :
  branches_from_main rest →
  branches_from_main (map args (loop_cmds events st) ++ rest).
Proof.
  intros Hrest. revert st.
  induction events as [|event events IH]; intros st; [done|].
  cbn [loop_cmds]. rewrite map_app, <-app_assoc.
  destruct (dropped event st); [apply IH|].
  apply branches_from_main_event, IH.
Qed.

Lemma attempted_planned present first_event rest active :
  omap (λ op, match op with
              | CheckCall c => Some (args c)
              | _ => None
              end)
       (build_ops present (first_event :: rest)
        ++ [CheckCall checkout_main; CheckCall (merge_cmd active)])
  = map args (init_cmds (created_at first_event))
    ++ map args (loop_cmds (first_event :: rest) empty_alloc)
    ++ [args checkout_main; args (merge_cmd active)].
Proof.
  unfold build_ops. rewrite !omap_app.
  assert (∀ cs, omap (λ op, match op with
                            | CheckCall c => Some (args c)
                            | _ => None
                            end) (map CheckCall cs) = map args cs) as Hargs.
  { induction cs as [|c cs IH]; [done|]. by rewrite !map_cons, omap_cons, IH. }
  rewrite omap_cons, Hargs, map_app.
  destruct present; by rewrite <-app_assoc.
Qed.

(** The commands attempted in a run are a beginning of the planned
    ones. *)
Lemma main_attempted_prefix {W} `{World W} (events : list Event) (w : W) :
  ∃ first_date timelines,
    attempted (trace (main (Fetched events) (boot w)).2)
    `prefix_of`
    map args (init_cmds first_date)
    ++ map args (loop_cmds (push_events events) empty_alloc)
    ++ [args checkout_main; args (merge_cmd timelines)].
Proof.
  destruct (push_events events) as [|first_event rest] eqn:Hpushes.
  - exists "", ∅. rewrite attempted_operations.
    rewrite main_operations_none by (by intros ? [= <-]).
    by eexists.
  - destruct (main (Fetched events) (boot w)) as [r p'] eqn:Hrun.
    cbn [snd]. rewrite attempted_operations.
    apply main_operations in Hrun as (k & -> & _); [|by rewrite Hpushes].
    rewrite Hpushes. change (operations (trace (boot w))) with (@nil Op).
    rewrite app_nil_l.
    exists (created_at first_event),
      (active_branches (loop_state (first_event :: rest) empty_alloc)).
    rewrite <-(attempted_planned
                 (path_exists OUTPUT_REPO_DIR (world (boot w)))).
    apply omap_prefix, prefix_take.
Qed.

(** X10: timelines branch from "main": in any run, every
    [git checkout -b] attempted comes right after a [git checkout main],
    with no other command in between. *)
Theorem timelines_branch_from_main {W} `{World W}
    (resp : Response) (w : W) :
  branches_from_main (attempted (trace (main resp (boot w)).2)).
Proof.
  destruct resp as [events|e].
  - destruct (main_attempted_prefix events w)
      as (first_date & timelines & Hprefix).
    eapply branches_from_main_prefix; [exact Hprefix|].
    unfold init_cmds. rewrite !map_cons. cbn [app map].
    repeat (apply branches_from_main_cons; [by intros name [=]|]).
    apply branches_from_main_loop.
    repeat (apply branches_from_main_cons; [by intros name [=]|]).
    apply branches_from_main_nil.
  - rewrite main_fetch_failed. apply branches_from_main_nil.
Qed.

(** [sorted] gives one result for all arrangements of a list. *)
Lemma sorted_Permutation (l1 l2 : list string) :
  l1 ≡ₚ l2 → PySort.sorted l1 = PySort.sorted l2.
Proof.
  intros Hperm.
  apply (StronglySorted_unique_strong Text.le);
    [|apply sorted_ascending..|].
  - intros x y _ _. apply String.leb_antisym.
  - unfold PySort.sorted. by rewrite !sort_Permutation.
Qed.

(** The set of created names after the loop. *)
Lemma loop_state_created_set events st :
  created_branches (loop_state events st)
  = created_branches st ∪ list_to_set (creates (loop_ops events st)).
Proof.
  revert st. induction events as [|event events IH]; intros st.
  - cbn. by rewrite union_empty_r_L.
  - cbn [loop_state loop_ops]. rewrite IH, creates_app, list_to_set_app_L.
    unfold advance. destruct (dropped event st).
    + cbn. by rewrite union_empty_l_L.
    + rewrite creates_event_ops.
      assert (created_branches (next event st)
              = if bool_decide (timeline_of event ∉ created_branches st)
                then created_branches st ∪ {[timeline_of event]}
                else created_branches st) as -> by done.
      case_bool_decide.
      * cbn. by rewrite union_empty_r_L, (assoc_L (∪)).
      * cbn. by rewrite union_empty_l_L.
Qed.

(** X11: when [main] returns, the last two commands it attempted are
    [git checkout main] and one [git merge --no-edit] that names the
    timelines created in the run, each once, in ascending order. *)
Theorem merge_names_created {W} `{World W}
    (events : list Event) (w : W) (p' : Proc W) :
  main (Fetched events) (boot w) = (Ret tt, p') →
  ∃ front,
    attempted (trace p')
    = front ++ [["git"; "checkout"; "main"];
                ["git"; "merge"; "--no-edit"]
                ++ PySort.sorted (created (trace p'))].
Proof.
  intros Hrun.
  destruct (main_ops_returned events (boot w) p' Hrun)
    as (first_event & rest & tail & Hpushes & Hops & Htail).
  assert (PySort.sorted (created (trace p'))
          = PySort.sorted
              (elements (active_branches
                           (loop_state (push_events events) empty_alloc))))
    as ->.
  { apply sorted_Permutation.
    rewrite created_creates, Hops, Hpushes.
    change (ops (trace (boot w))) with (@nil GitOp).
    rewrite app_nil_l, !creates_app.
    change (creates (init_ops _)) with (@nil string).
    assert (creates (SwitchTo "main" :: tail) = []) as ->
      by (by destruct Htail as [-> | [names ->]]).
    rewrite app_nil_l, app_nil_r.
    destruct (loop_state_agree (first_event :: rest) empty_alloc agree_empty)
      as [_ ->].
    rewrite loop_state_created_set.
    change (created_branches empty_alloc) with (∅ : gset string).
    rewrite union_empty_l_L. symmetry. apply elements_list_to_set.
    apply creates_loop_ops_NoDup. }
  apply main_trace_inv in Hrun
    as [(k & op & e & _ & [=] & _) | [(e & [=] & _) | (o & _ & ->)]];
    [|by rewrite Hpushes].
  destruct o as [|e]; cbv iota; eexists; rewrite !attempted_app;
    change (attempted [Printed _; Did (CheckCall ?c1) _; Did (CheckCall ?c2) _])
      with [args c1; args c2];
    change (attempted [Printed _]) with (@nil (list string));
    change (attempted []) with (@nil (list string));
    rewrite ?app_nil_r, !app_assoc; reflexivity.
Qed.

Lemma merge_names_created_witness :
  let p' := (@main unit obliging (Fetched six_projects) (boot tt)).2 in
  ∃ front,
    attempted (trace p')
    = front ++ [["git"; "checkout"; "main"];
                ["git"; "merge"; "--no-edit"]
                ++ PySort.sorted (created (trace p'))].
Proof.
  apply (@merge_names_created unit obliging six_projects tt
           (@main unit obliging (Fetched six_projects) (boot tt)).2).
  vm_compute. reflexivity.
Defined.

Lemma commit_dates_loop_ops_length events st :
  length (commit_dates (loop_ops events st))
  = sum_list_with commit_count (kept events st).
Proof.
  revert st. induction events as [|event events IH]; intros st; [done|].
  cbn [loop_ops kept]. rewrite commit_dates_app, length_app. unfold advance.
  destruct (dropped event st); [apply IH|].
  rewrite commit_dates_event_ops, length_map, sub_changes_length, IH.
  done.
Qed.

(** X12: when [main] returns, the commits made are the root commit and,
    for every push event not skipped, as many as the event holds, or one
    for an event that holds none; skipped events add nothing. *)
Theorem commits_made_total {W} `{World W}
    (events : list Event) (w : W) (p' : Proc W) :
  main (Fetched events) (boot w) = (Ret tt, p') →
  commits_made (trace p')
  = 1 + sum_list_with
          (λ event, max 1 (length (default [] (commits event))))
          (kept (PySort.sort created_at
                   (filter (λ e, type e = "PushEvent") events))
                empty_alloc).
Proof.
  intros Hrun. fold (push_events events).
  apply main_ops_returned in Hrun
    as (first_event & rest & tail & Hpushes & Hops & Htail).
  unfold commits_made. rewrite Hops, Hpushes.
  change (ops (trace (boot w))) with (@nil GitOp).
  rewrite app_nil_l, !commit_dates_app, !length_app.
  assert (commit_dates (SwitchTo "main" :: tail) = []) as ->
    by (by destruct Htail as [-> | [names ->]]).
  rewrite commit_dates_loop_ops_length.
  change (length (commit_dates (init_ops _))) with 1.
  fold commit_count. simpl. lia.
Qed.

Lemma commits_made_total_witness :
  commits_made
    (trace (@main unit obliging (Fetched six_projects) (boot tt)).2)
  = 1 + sum_list_with
          (λ event, max 1 (length (default [] (commits event))))
          (kept (PySort.sort created_at
                   (filter (λ e, type e = "PushEvent") six_projects))
                empty_alloc).
Proof.
  apply (@commits_made_total unit obliging six_projects tt
           (@main unit obliging (Fetched six_projects) (boot tt)).2).
  vm_compute. reflexivity.
Defined.

(** X13: the part of a commit message that is replayed is its first line:
    it holds no line break, and the message is that part alone or that
    part, a line break, and more. *)
Theorem first_piece_spec (sep : ascii) (s : string) :
  (sep ∉ chars (first_piece sep s))
  ∧ (s = first_piece sep s
     ∨ ∃ more, s = first_piece sep s +:+ String sep more).
Proof.
  unfold first_piece.
  pose proof (split_no_sep sep s) as Hno.
  pose proof (join_split sep s) as Hjoin.
  pose proof (split_nonempty sep s) as Hsome.
  destruct (split sep s) as [|piece [|piece' pieces]]; [done|..].
  - apply Forall_cons in Hno as [Hpiece _]. split; [done|]. by left.
  - apply Forall_cons in Hno as [Hpiece _]. split; [done|]. right.
    by exists (join sep (piece' :: pieces)).
Qed.

(** X15: an event of a project that has its timeline is replayed whatever
    the number of names seen: the loop body, when it completes, has run
    [git checkout] of the timeline and one commit per commit of the event
    (or the placeholder), has created no timeline, and leaves the three
    sets as they were. *)
Theorem known_project_replayed {W} `{World W}
    (event : Event) (st st' : Alloc) (p p' : Proc W) :
  last_piece slash (repo_name event) ∈ repos_seen st →
  last_piece slash (repo_name event) ∈ created_branches st →
  replay_event event st p = (Ret st', p') →
  let name := last_piece slash (repo_name event) in
  st' = st
  ∧ created (trace p') = created (trace p)
  ∧ attempted (trace p')
    = attempted (trace p)
      ++ ["git"; "checkout"; name]
      :: map (λ commit,
                ["git"; "commit"; "--allow-empty"; "-m";
                 name +:+ ": " +:+ first_piece newline (message commit)])
             (sub_changes event).
Proof.
  intros Hseen Hcreated. cbv zeta. fold (timeline_of event) in *.
  rewrite replay_event_plan.
  assert (dropped event st = false) as -> by (apply not_dropped_spec; by left).
  destruct (run_all _ p) as [r1 p1] eqn:Hrun.
  apply run_all_inv in Hrun as [[-> Htrace] | (k & op & e & _ & -> & _)];
    [|done].
  intros [= <- <-]. rewrite Htrace.
  unfold event_cmds, checkout_cmds.
  rewrite bool_decide_eq_false_2 by (by intros []).
  split_and!.
  - unfold next. rewrite !bool_decide_eq_false_2 by (by intros []).
    by destruct st.
  - rewrite created_app, !created_creates, ops_done, omap_parse_op.
    rewrite omap_app. cbn [omap list_omap parse app].
    rewrite creates_app.
    assert (creates (omap parse
              (map (commit_cmd (timeline_of event) (created_at event))
                   (sub_changes event))) = []) as ->.
    { induction (sub_changes event) as [|c cs IH]; [done|].
      by rewrite map_cons, omap_cons, parse_commit. }
    by rewrite app_nil_r.
  - rewrite attempted_app. f_equal. rewrite map_app.
    cbn [map app]. unfold attempted. rewrite omap_cons. f_equal.
    induction (sub_changes event) as [|c cs IH]; [done|].
    by rewrite !map_cons, omap_cons, IH.
Qed.

Lemma known_project_replayed_witness :
  let out :=
    @replay_event unit obliging (push "avinasx/a" "2024-03-05" ["x"; "y"])
      full_alloc (boot tt) in
  full_alloc = full_alloc
  ∧ created (trace out.2) = []
  ∧ attempted (trace out.2)
    = [] ++ ["git"; "checkout"; "a"]
      :: [["git"; "commit"; "--allow-empty"; "-m"; "a: x"];
          ["git"; "commit"; "--allow-empty"; "-m"; "a: y"]].
Proof.
  apply (@known_project_replayed unit obliging
           (push "avinasx/a" "2024-03-05" ["x"; "y"]) full_alloc full_alloc
           (boot tt)
           (@replay_event unit obliging
              (push "avinasx/a" "2024-03-05" ["x"; "y"])
              full_alloc (boot tt)).2).
  - apply (proj1 (bool_decide_eq_true _)). vm_compute. reflexivity.
  - apply (proj1 (bool_decide_eq_true _)). vm_compute. reflexivity.
  - vm_compute. reflexivity.
Defined.

(** The timelines the loop creates: the new names in the order of their
    first events, as many as the cap leaves room for. *)
Lemma creates_loop_ops_first_seen events st :
  agree st → within_cap st →
  creates (loop_ops events st)
  = take (MAX_REPOS - size (repos_seen st))
         (first_seen (map timeline_of events) (repos_seen st)).
Proof.
  revert st. induction events as [|event events IH]; intros st Hagree Hcap.
  - cbn [map first_seen]. by rewrite take_nil.
  - cbn [loop_ops map first_seen]. rewrite creates_app.
    pose proof (advance_agree event st Hagree) as Hagree'.
    pose proof (advance_within_cap event st Hcap) as Hcap'.
    rewrite (IH _ Hagree' Hcap'). unfold advance in *.
    destruct Hagree as [Hseen Hactive]. unfold within_cap in Hcap.
    destruct (dropped event st) eqn:Hdrop.
    + apply dropped_spec in Hdrop as [Hnew Hfull].
      rewrite bool_decide_eq_false_2 by done.
      replace (MAX_REPOS - size (repos_seen st)) with 0 by lia.
      done.
    + rewrite creates_event_ops, <-Hseen.
      assert (repos_seen (next event st)
              = if bool_decide (timeline_of event ∉ repos_seen st)
                then repos_seen st ∪ {[timeline_of event]}
                else repos_seen st) as -> by done.
      apply not_dropped_spec in Hdrop.
      destruct (decide (timeline_of event ∈ repos_seen st)) as [Hin | Hnew].
      * rewrite bool_decide_eq_false_2 by (by intros []).
        by rewrite bool_decide_eq_true_2.
      * rewrite bool_decide_eq_true_2 by done.
        rewrite (bool_decide_eq_false_2 (timeline_of event ∈ _)) by done.
        destruct Hdrop as [? | Hroom]; [done|].
        rewrite size_union, size_singleton
          by (by apply disjoint_singleton_r).
        replace (MAX_REPOS - size (repos_seen st))
          with (S (MAX_REPOS - (size (repos_seen st) + 1))) by lia.
        done.
Qed.

(** X16: when [main] returns, the timelines created are those of the
    first [MAX_REPOS] different names among the sorted push events, in the
    order in which these names first come up. *)
Theorem created_first_names {W} `{World W}
    (events : list Event) (w : W) (p' : Proc W) :
  main (Fetched events) (boot w) = (Ret tt, p') →
  created (trace p')
  = take MAX_REPOS
      (first_seen
         (map (λ event, last_piece slash (repo_name event))
              (PySort.sort created_at
                 (filter (λ e, type e = "PushEvent") events)))
         ∅).
Proof.
  intros Hrun. fold (push_events events).
  apply main_ops_returned in Hrun
    as (first_event & rest & tail & Hpushes & Hops & Htail).
  rewrite created_creates, Hops, Hpushes.
  change (ops (trace (boot w))) with (@nil GitOp).
  rewrite app_nil_l, !creates_app.
  change (creates (init_ops _)) with (@nil string).
  assert (creates (SwitchTo "main" :: tail) = []) as ->
    by (by destruct Htail as [-> | [names ->]]).
  rewrite app_nil_l, app_nil_r.
  rewrite creates_loop_ops_first_seen
    by (apply agree_empty || apply within_cap_empty).
  change (repos_seen empty_alloc) with (∅ : gset string).
  by rewrite size_empty, Nat.sub_0_r.
Qed.

Lemma created_first_names_witness :
  created (trace (@main unit obliging (Fetched six_projects) (boot tt)).2)
  = take MAX_REPOS
      (first_seen
         (map (λ event, last_piece slash (repo_name event))
              (PySort.sort created_at
                 (filter (λ e, type e = "PushEvent") six_projects)))
         ∅).
Proof.
  apply (@created_first_names unit obliging six_projects tt
           (@main unit obliging (Fetched six_projects) (boot tt)).2).
  vm_compute. reflexivity.
Defined.

(** X17: the number announced in the second line of output is the number
    of push events of the feed, those skipped later included. *)
Theorem found_line_counts_pushes {W} `{World W}
    (events : list Event) (w : W) :
  let pushes := filter (λ e, type e = "PushEvent") events in
  pushes ≠ [] →
  trace (main (Fetched events) (boot w)).2 !! 1
  = Some (Printed ("Found " +:+ pretty (length pushes)
                   +:+ " push events. Generating synthetic history...")).
Proof.
  cbv zeta. intros Hsome.
  assert (length (push_events events)
          = length (filter (λ e, type e = "PushEvent") events)) as Hlen.
  { unfold push_events. by rewrite sort_Permutation. }
  assert (push_events events ≠ []) as Hpushes.
  { intros Hnil. rewrite Hnil in Hlen.
    by destruct (filter _ events). }
  destruct (main (Fetched events) (boot w)) as [r p'] eqn:Hrun. cbn [snd].
  apply main_trace_inv in Hrun
    as [(k & op & e & _ & _ & ->) | [(e & _ & ->) | (o & _ & ->)]];
    [| | |done]; by rewrite Hlen.
Qed.

Lemma found_line_counts_pushes_witness :
  trace (@main unit obliging (Fetched six_projects) (boot tt)).2 !! 1
  = Some (Printed "Found 7 push events. Generating synthetic history...").
Proof.
  apply (@found_line_counts_pushes unit obliging six_projects tt).
  vm_compute. discriminate.
Defined.

(** The loop makes no merge and ends on the timeline of its last event. *)
Lemma merges_run_loop_ops events st s :
  merges (run s (loop_ops events st)) = merges s.
Proof.
  revert st s. induction events as [|event events IH]; intros st s; [done|].
  cbn [loop_ops]. rewrite run_app, IH.
  destruct (dropped event st); [done|].
  unfold event_ops. rewrite run_app.
  transitivity (merges (run s (checkout_ops (timeline_of event) st))).
  - generalize (run s (checkout_ops (timeline_of event) st)).
    induction (sub_changes event) as [|c cs IHc]; intros s'; [done|].
    rewrite map_cons, run_cons. by rewrite IHc.
  - unfold checkout_ops. by case_bool_decide.
Qed.

(** The names merged are the names created. *)
Lemma sorted_created_active {W} `{World W}
    (events : list Event) (w : W) (p' : Proc W) :
  main (Fetched events) (boot w) = (Ret tt, p') →
  PySort.sorted (created (trace p'))
  = PySort.sorted
      (elements (active_branches
                   (loop_state (push_events events) empty_alloc))).
Proof.
  intros Hrun.
  destruct (main_ops_returned events (boot w) p' Hrun)
    as (first_event & rest & tail & Hpushes & Hops & Htail).
  apply sorted_Permutation.
  rewrite created_creates, Hops, Hpushes.
  change (ops (trace (boot w))) with (@nil GitOp).
  rewrite app_nil_l, !creates_app.
  change (creates (init_ops _)) with (@nil string).
  assert (creates (SwitchTo "main" :: tail) = []) as ->
    by (by destruct Htail as [-> | [names ->]]).
  rewrite app_nil_l, app_nil_r.
  destruct (loop_state_agree (first_event :: rest) empty_alloc agree_empty)
    as [_ ->].
  rewrite loop_state_created_set.
  change (created_branches empty_alloc) with (∅ : gset string).
  rewrite union_empty_l_L. symmetry. apply elements_list_to_set.
  apply creates_loop_ops_NoDup.
Qed.

(** X18: when [main] returns, the repository is on "main", and what was
    merged was merged into "main": the store holds no merge when the merge
    command failed, and else the one merge, into "main", of the timelines
    created. *)
Theorem ends_on_main {W} `{World W}
    (events : list Event) (w : W) (p' : Proc W) (initial_branch : string) :
  main (Fetched events) (boot w) = (Ret tt, p') →
  let final := replay (fresh initial_branch) (trace p') in
  head final = "main"
  ∧ merges final
    = match failures (trace p') with
      | [] => [("main", PySort.sorted (created (trace p')))]
      | _ => []
      end.
Proof.
  intros Hrun. cbv zeta.
  rewrite (sorted_created_active events w p' Hrun).
  destruct (main_ops_returned events (boot w) p' Hrun)
    as (first_event & rest & _ & Hpushes & _ & _).
  apply main_trace_inv in Hrun
    as [(k & op & e & _ & [=] & _) | [(e & [=] & _) | (o & _ & ->)]];
    [|by rewrite Hpushes].
  rewrite replay_run, !ops_app, !failures_app, ops_done, failures_done.
  rewrite Hpushes, parse_build_ops.
  change (ops (trace (boot w))) with (@nil GitOp).
  change (failures (trace (boot w))) with (@nil Op).
  change (ops [Printed _; Printed _]) with (@nil GitOp).
  change (failures [Printed _; Printed _]) with (@nil Op).
  change (ops [Printed _]) with (@nil GitOp).
  change (failures [Printed _]) with (@nil Op).
  rewrite !app_nil_l, !run_app.
  destruct o as [|e]; cbv iota.
  - change (ops [Printed _; Did (CheckCall checkout_main) Done;
                 Did (CheckCall (merge_cmd ?a)) Done])
      with [SwitchTo "main"; MergeTimelines (PySort.sorted (elements a))].
    change (failures [Printed _; Did _ Done; Did _ Done]) with (@nil Op).
    change (ops []) with (@nil GitOp).
    change (failures []) with (@nil Op).
    cbn [app run foldl step head merges].
    split; [done|]. by rewrite merges_run_loop_ops.
  - change (ops [Printed _; Did (CheckCall checkout_main) Done;
                 Did (CheckCall (merge_cmd ?a)) (Failed e)])
      with [SwitchTo "main"].
    change (failures [Printed _; Did _ Done; Did ?op (Failed e)]) with [op].
    cbn [app run foldl step head merges].
    split; [done|]. by rewrite merges_run_loop_ops.
Qed.

Lemma ends_on_main_witness :
  let final :=
    replay (fresh "master")
      (trace (@main unit obliging (Fetched six_projects) (boot tt)).2) in
  head final = "main"
  ∧ merges final
    = match failures
              (trace (@main unit obliging (Fetched six_projects) (boot tt)).2)
      with
      | [] => [("main",
                PySort.sorted
                  (created
                     (trace (@main unit obliging (Fetched six_projects)
                               (boot tt)).2)))]
      | _ => []
      end.
Proof.
  apply (@ends_on_main unit obliging six_projects tt
           (@main unit obliging (Fetched six_projects) (boot tt)).2 "master").
  vm_compute. reflexivity.
Defined.

(** A timeline created in the loop is named after one of its events. *)
Lemma creates_loop_ops_event events st n :
  n ∈ creates (loop_ops events st) →
  ∃ event, event ∈ events ∧ n = timeline_of event.
Proof.
  revert st. induction events as [|event events IH]; intros st.
  - by intros ?%elem_of_nil.
  - cbn [loop_ops]. rewrite creates_app, elem_of_app.
    intros [Hn | Hn].
    + exists event. split; [left|].
      destruct (dropped event st); [by apply elem_of_nil in Hn|].
      rewrite creates_event_ops in Hn.
      case_bool_decide; [|by apply elem_of_nil in Hn].
      by apply list_elem_of_singleton in Hn.
    + destruct (IH _ Hn) as (event' & Hin & ->).
      exists event'. split; [by right|done].
Qed.

(** X14: a timeline is named by the last segment of a project's name: in
    any run, every timeline created has a name without a slash, and a push
    event of the feed has a project name that is this name, or ends with a
    slash and this name. *)
Theorem created_names_short {W} `{World W}
    (events : list Event) (w : W) (name : string) :
  name ∈ created (trace (main (Fetched events) (boot w)).2) →
  (slash ∉ chars name)
  ∧ ∃ event,
      event ∈ events ∧ type event = "PushEvent"
      ∧ (repo_name event = name
         ∨ ∃ owner, repo_name event = owner +:+ String slash name).
Proof.
  destruct (main (Fetched events) (boot w)) as [r p'] eqn:Hrun.
  apply main_ops_prefix in Hrun as (done & Hops & [rest Hprefix]).
  cbn [snd]. rewrite created_creates, Hops.
  change (ops (trace (boot w))) with (@nil GitOp). rewrite app_nil_l.
  intros Hin.
  assert (name ∈ creates (main_ops events)) as Hall.
  { rewrite Hprefix, creates_app. apply elem_of_app. by left. }
  unfold main_ops in Hall.
  destruct (push_events events) as [|first_event tail] eqn:Hpushes;
    [by apply elem_of_nil in Hall|].
  rewrite !creates_app in Hall.
  change (creates (init_ops _)) with (@nil string) in Hall.
  change (creates [SwitchTo _; MergeTimelines _]) with (@nil string) in Hall.
  rewrite app_nil_l, app_nil_r in Hall.
  apply creates_loop_ops_event in Hall as (event & Hevent & ->).
  rewrite <-Hpushes in Hevent.
  apply push_events_elem_of in Hevent as [Hevent Htype].
  destruct (last_piece_spec slash (repo_name event)) as [Hno Hname].
  split; [done|]. exists event. split; [done|]. split; [done|].
  destruct Hname as [Hname | [owner Hname]]; [by left|right; by exists owner].
Qed.

Lemma created_names_short_witness :
  (slash ∉ chars "p1")
  ∧ ∃ event,
      event ∈ six_projects ∧ type event = "PushEvent"
      ∧ (repo_name event = "p1"
         ∨ ∃ owner, repo_name event = owner +:+ String slash "p1").
Proof.
  apply (@created_names_short unit obliging six_projects tt "p1").
  vm_compute. apply list_elem_of_here.
Defined.
